(** * nfl-elo: the rating fold and the forecasts of [elo.js]

    A shallow embedding of the arithmetic core of the repository: the ELO
    helpers, the fold of [runEloCalculation] over the completed games, the
    forecast of [predictWeek] / [predictTeam] and the projection loop of
    [generateRecordsTable]; then the score reader [toNum], the options of
    [populateDropdowns] and the counts of the records table.

    Modelling conventions.
    - A JavaScript number is an ideal real number ([R]): the statements
      about numeric values are statements of real arithmetic.
      [Math.pow 10 x] is [Rpower 10 x], [Math.exp] is [exp], [Math.log] is
      [ln].  Where the binary64 result of the code differs from the real
      one in a way that matters to a statement, the lines concerned are
      given again in the module [Binary64], on primitive floats.
    - A score is [option R]: the loader's [toNum] returns either a finite
      number or [null], so [Number.isFinite] is [is_Some].  The loader of
      part_001 is different: there a score cell is [null], a number or NaN,
      and its numbers are [option R] with [None] for NaN.
    - A week is an integer ([Z]); team identifiers are strings, the empty
      string being the only falsy one.
    - A ratings / records object is a finite map keyed by team name.
    - The DOM and the network are left out; the module-level variables
      [FINAL_RATINGS], [SCHEDULE] and [CONFIG] are gathered in [Globals]. *)

From Stdlib Require Import Reals Lra Lia ZArith Sorted Ascii String.
From Stdlib Require PrimFloat.
From stdpp Require Import gmap strings list fin_maps.

Local Open Scope R_scope.

(** ** Numbers *)

(** [Number(x ?? d)] on an optional configuration field. *)
Definition orDefault (x : option R) (d : R) : R :=
  match x with Some v => v | None => d end.

(** JavaScript's [ToNumber] on a score used in arithmetic: [null] is [0]. *)
Definition ToNumber (x : option R) : R :=
  match x with Some v => v | None => 0 end.

(** [Number.isFinite] on a score. *)
Definition isFinite (x : option R) : bool :=
  match x with Some _ => true | None => false end.

#[global] Instance R_inhabited : Inhabited R := populate 0.

(** ** Data model *)

Record Game := mkGame {
  week : Z;
  winner : string;
  winnerScore : option R;
  winnerIsAway : bool;
  loser : string;
  loserScore : option R
}.

Record Config := mkConfig {
  K : option R;
  home_field_advantage : option R;
  half_life_weeks : option R;
  mean_elo : option R
}.

(** [!s] on a team identifier. *)
Definition falsy (s : string) : bool := bool_decide (s = EmptyString).

(** ** ELO helper functions (src/elo.js) *)

Definition expectedProb (winnerElo loserElo hfaAdj : R) : R :=
  let diff := winnerElo + hfaAdj - loserElo in
  1 / (1 + Rpower 10 (- diff / 400)).

Definition computeKprime (K mov eloDiffAbs wkWeight : R) : R :=
  let factor := 2.2 / ((eloDiffAbs * 0.001) + 2.2) in
  K + mov * factor * wkWeight.

Definition getWinProbability (homeElo awayElo HFA : R) : R :=
  1 / (1 + Rpower 10 (- (homeElo + HFA - awayElo) / 400)).

(** The same helpers in the other variants of the file. *)

Module Part000.
Definition computeKFactor (baseK marginOfVictory eloDiff weekWeight : R) : R :=
  let movMultiplier := 2.2 / ((eloDiff * 0.001) + 2.2) in
  baseK + marginOfVictory * movMultiplier * weekWeight.
End Part000.

Module Part002.
Definition computeKprime (K mov eloDiffAbs wkWeight : R) : R :=
  let factor := 2.2 / ((eloDiffAbs * 0.001) + 2.2) in
  K + mov * factor * wkWeight.
End Part002.

(** The effective K-factor as the specification words it, from the two
    prior ratings. *)
Definition Kprime_spec (K mov winnerPrior loserPrior weekWeight : R) : R :=
  K + mov * (2.2 / (Rabs (winnerPrior - loserPrior) * 0.001 + 2.2)) * weekWeight.

(** ** Sorting

    [Array.prototype.sort] is stable.  [le a b] reads "the comparator
    applied to [(a, b)] is not positive": an element inserted from the left
    stays in front of the elements it ties with. *)

Section StableSort.
Context {A : Type} (le : A -> A -> bool).

Fixpoint insertSorted (x : A) (l : list A) : list A :=
  match l with
  | [] => [x]
  | h :: t => if le x h then x :: h :: t else h :: insertSorted x t
  end.

Definition stableSort (l : list A) : list A := foldr insertSorted [] l.
End StableSort.

(** ** The rating engine: [runEloCalculation] (src/elo.js) *)

(** The filter of line 115. *)
Definition isCompletedGame (g : Game) : bool :=
  isFinite (winnerScore g) && isFinite (loserScore g).

(** The filter of [predictWeek], [predictTeam] and [generateRecordsTable]. *)
Definition isFutureGame (g : Game) : bool :=
  negb (isFinite (winnerScore g)) && negb (isFinite (loserScore g)).

Definition completedGamesOf (schedule : list Game) : list Game :=
  List.filter isCompletedGame schedule.

(** [completedGames.length ? Math.max(...completedGames.map(g => g.week)) : 0] *)
Definition weeksCompletedOf (completedGames : list Game) : Z :=
  match completedGames with
  | [] => 0%Z
  | g :: gs => fold_left Z.max (List.map week gs) (week g)
  end.

(** [completedGames.sort((a,b) => a.week - b.week)] *)
Definition sortByWeek (l : list Game) : list Game :=
  stableSort (fun a b => (week a <=? week b)%Z) l.

(** The values the loop body computes for one game: the fields of a row of
    [trace], before their rounding for display. *)
Record TraceRow := mkTraceRow {
  winnerPrior : R;
  loserPrior : R;
  hfaAdj : R;
  E : R;
  mov : R;
  wkWeight : R;
  kPrime : R;
  delta : R;
  winnerAfter : R;
  loserAfter : R
}.

Section Engine.
Variables (K HFA lambda meanElo : R) (weeksCompleted : Z).

Definition traceRow (winnerPrior loserPrior : R) (g : Game) : TraceRow :=
  let hfaAdj := if winnerIsAway g then - HFA else HFA in
  let E := expectedProb winnerPrior loserPrior hfaAdj in
  let mov := Rmax 1 (ToNumber (winnerScore g) - ToNumber (loserScore g)) in
  let wkWeight := Rmin 1 (exp (- lambda * IZR (weeksCompleted - week g))) in
  let kPrime := computeKprime K mov (Rabs (winnerPrior - loserPrior)) wkWeight in
  let delta := kPrime * (1 - E) in
  let winnerAfter := winnerPrior + delta in
  let loserAfter := loserPrior - delta in
  mkTraceRow winnerPrior loserPrior hfaAdj E mov wkWeight kPrime delta
             winnerAfter loserAfter.

(** [if (ratings[team] === undefined) ratings[team] = meanElo] *)
Definition seed (team : string) (ratings : gmap string R) : gmap string R :=
  match ratings !! team with
  | None => <[team := meanElo]> ratings
  | Some _ => ratings
  end.

(** One iteration of the [for (const g of completedGames)] loop. *)
Definition processGame (ratings : gmap string R) (g : Game) : gmap string R :=
  if falsy (winner g) || falsy (loser g) then ratings
  else
    let ratings := seed (winner g) ratings in
    let ratings := seed (loser g) ratings in
    let row := traceRow (ratings !!! winner g) (ratings !!! loser g) g in
    <[loser g := loserAfter row]> (<[winner g := winnerAfter row]> ratings).
End Engine.

Record Globals := mkGlobals {
  FINAL_RATINGS : gmap string R;
  SCHEDULE : list Game;
  CONFIG : Config
}.

(** The ratings object at the end of [runEloCalculation]. *)
Definition finalRatings (startingElo : gmap string R) (config : Config)
    (schedule : list Game) : gmap string R :=
  let K := orDefault (K config) 50 in
  let HFA := orDefault (home_field_advantage config) 25 in
  let halfLife := orDefault (half_life_weeks config) 12 in
  let lambda := ln 2 / halfLife in
  let meanElo := orDefault (mean_elo config) 1500 in
  let ratings := startingElo in
  let completedGames := completedGamesOf schedule in
  let weeksCompleted := weeksCompletedOf completedGames in
  match completedGames with
  | [] => ratings
  | _ :: _ =>
      fold_left (processGame K HFA lambda meanElo weeksCompleted)
                (sortByWeek completedGames) ratings
  end.

Definition runEloCalculation (startingElo : gmap string R) (config : Config)
    (schedule : list Game) : Globals :=
  mkGlobals (finalRatings startingElo config schedule) schedule config.

(** [weeksCompleted] as [runEloCalculation] reports it. *)
Definition weeksCompleted (schedule : list Game) : Z :=
  weeksCompletedOf (completedGamesOf schedule).

(** ** The older variant (src/unnamed/part_001)

    Its K-factor is logarithmic in the margin, its loop does not skip rows
    with a missing identifier, and it returns early when no game is
    completed.  Its loader keeps [null] for an empty score cell and applies
    [Number] to any other cell, so the score of a cell holding text is NaN;
    its filter tests the scores against [null] only. *)

Module Part001.
Definition expectedProb (winnerEloPrior loserEloPrior hfaAdj : R) : R :=
  let diff := (winnerEloPrior + hfaAdj) - loserEloPrior in
  let exponent := - diff / 400 in
  1 / (1 + Rpower 10 exponent).

Definition computeKprime (K mov eloDiffAbs wkWeight : R) : R :=
  let movTerm := ln (mov + 1) in
  let denom := (eloDiffAbs * 0.001) + 2.2 in
  let factor := 2.2 / denom in
  K * movTerm * factor * wkWeight.

(** A number that may be NaN.  Arithmetic, [Math.max] and [Math.abs] return
    NaN as soon as an argument is NaN: the bind of the option monad. *)
Definition number : Type := option R.

Definition NaN : number := None.

(** A score as [loadCSV] returns it:
    [winnerScoreStr === "" ? null : Number(winnerScoreStr)]. *)
Inductive Score : Type :=
| null
| scored (n : number).

Record Row := mkRow {
  week : Z;
  winner : string;
  winnerScore : Score;
  winnerIsAway : bool;
  loser : string;
  loserScore : Score
}.

(** [ToNumber] on a score used in [winnerScore - loserScore]. *)
Definition ToNumber (s : Score) : number :=
  match s with null => Some 0 | scored n => n end.

(** [s !== null] *)
Definition notNull (s : Score) : bool :=
  match s with null => false | scored _ => true end.

(** The filter of line 75. *)
Definition isCompletedGame (g : Row) : bool :=
  notNull (winnerScore g) && notNull (loserScore g).

Definition completedGamesOf (schedule : list Row) : list Row :=
  List.filter isCompletedGame schedule.

Definition weeksCompletedOf (completedGames : list Row) : Z :=
  match completedGames with
  | [] => 0%Z
  | g :: gs => fold_left Z.max (List.map week gs) (week g)
  end.

Definition sortByWeek (l : list Row) : list Row :=
  stableSort (fun a b => (week a <=? week b)%Z) l.

(** [if (ratings[team] === undefined) ratings[team] = meanElo] *)
Definition seed (meanElo : R) (team : string) (ratings : gmap string number)
    : gmap string number :=
  match ratings !! team with
  | None => <[team := Some meanElo]> ratings
  | Some _ => ratings
  end.

(** One iteration of the loop of lines 91-131: no row is skipped. *)
Definition processGame (K HFA lambda meanElo : R) (weeksCompleted : Z)
    (ratings : gmap string number) (g : Row) : gmap string number :=
  let ratings := seed meanElo (winner g) ratings in
  let ratings := seed meanElo (loser g) ratings in
  let winnerPrior : number := ratings !!! winner g in
  let loserPrior : number := ratings !!! loser g in
  let hfaAdj := if winnerIsAway g then - HFA else HFA in
  let E : number :=
    w ← winnerPrior; l ← loserPrior; Some (expectedProb w l hfaAdj) in
  let rawMov : number :=
    ws ← ToNumber (winnerScore g); ls ← ToNumber (loserScore g);
    Some (Rmax 1 (ws - ls)) in
  let mov := rawMov in
  let wkWeight := Rmin 1 (exp (- lambda * IZR (weeksCompleted - week g))) in
  let kPrime : number :=
    m ← mov; w ← winnerPrior; l ← loserPrior;
    Some (computeKprime K m (Rabs (w - l)) wkWeight) in
  let delta : number := k ← kPrime; e ← E; Some (k * (1 - e)) in
  let winnerAfter : number := w ← winnerPrior; d ← delta; Some (w + d) in
  let loserAfter : number := l ← loserPrior; d ← delta; Some (l - d) in
  <[loser g := loserAfter]> (<[winner g := winnerAfter]> ratings).

(** The ratings object [runEloCalculation] displays. *)
Definition finalRatings (startingElo : gmap string number) (config : Config)
    (schedule : list Row) : gmap string number :=
  let K := orDefault (K config) 50 in
  let HFA := orDefault (home_field_advantage config) 25 in
  let halfLife := orDefault (half_life_weeks config) 12 in
  let meanElo := orDefault (mean_elo config) 1500 in
  let lambda := ln 2 / halfLife in
  let ratings := startingElo in
  let completedGames := completedGamesOf schedule in
  let weeksCompleted := weeksCompletedOf completedGames in
  match completedGames with
  | [] => ratings
  | _ :: _ =>
      fold_left (processGame K HFA lambda meanElo weeksCompleted)
                (sortByWeek completedGames) ratings
  end.

(** [weeksCompleted] as the status line reports it. *)
Definition weeksCompleted (schedule : list Row) : Z :=
  weeksCompletedOf (completedGamesOf schedule).
End Part001.

(** ** Forecasts: [predictWeek] and [predictTeam] (src/elo.js) *)

#[global] Instance Rlt_decision (x y : R) : Decision (x < y) := Rlt_dec x y.
#[global] Instance Rle_decision (x y : R) : Decision (x <= y) := Rle_dec x y.

Record Prediction := mkPrediction {
  homeTeam : string;
  awayTeam : string;
  projectedWinner : string;
  winProb : R;
  margin : R
}.

Definition homeOf (g : Game) : string :=
  if winnerIsAway g then loser g else winner g.

Definition awayOf (g : Game) : string :=
  if winnerIsAway g then winner g else loser g.

(** [FINAL_RATINGS[team] ?? Number(CONFIG.mean_elo ?? 1500)] *)
Definition ratingOrMean (G : Globals) (team : string) : R :=
  match FINAL_RATINGS G !! team with
  | Some r => r
  | None => orDefault (mean_elo (CONFIG G)) 1500
  end.

(** The body of [futureGames.map(g => ...)], the same in both functions. *)
Definition predictGame (G : Globals) (g : Game) : Prediction :=
  let HFA := orDefault (home_field_advantage (CONFIG G)) 25 in
  let k := 0.147 in
  let homeTeam := homeOf g in
  let awayTeam := awayOf g in
  let homeElo := ratingOrMean G homeTeam in
  let awayElo := ratingOrMean G awayTeam in
  let pHomeWin := getWinProbability homeElo awayElo HFA in
  let projectedWinner := if decide (0.5 < pHomeWin) then homeTeam else awayTeam in
  let pWinner :=
    if decide (projectedWinner = homeTeam) then pHomeWin else 1 - pHomeWin in
  let eps := 1e-12 in
  let pClamped := Rmin (1 - eps) (Rmax eps pWinner) in
  let margin := ln (pClamped / (1 - pClamped)) / k in
  mkPrediction homeTeam awayTeam projectedWinner pWinner margin.

(** [predictions.sort((a,b) => b.winProb - a.winProb)] *)
Definition sortByWinProb (l : list Prediction) : list Prediction :=
  stableSort (fun a b => bool_decide (winProb b <= winProb a)) l.

(** The predictions [predictWeek] prints for the selected week; the empty
    list stands for the "No future games found" message. *)
Definition predictWeek (G : Globals) (wk : Z) : list Prediction :=
  let futureGames :=
    List.filter (fun g => (week g =? wk)%Z && isFutureGame g) (SCHEDULE G) in
  sortByWinProb (List.map (predictGame G) futureGames).

(** The predictions [predictTeam] prints for the selected team. *)
Definition predictTeam (G : Globals) (team : string) : list Prediction :=
  if falsy team then []
  else
    let futureGames :=
      List.filter
        (fun g => isFutureGame g &&
                  (bool_decide (winner g = team) || bool_decide (loser g = team)))
        (SCHEDULE G) in
    sortByWinProb (List.map (predictGame G) futureGames).

(** ** Projected records: [generateRecordsTable] (part_000, part_002) *)

Record TeamRecord := mkTeamRecord {
  wins : nat;
  losses : nat;
  projWins : R;
  projLosses : R;
  elo : R
}.

Definition incWins (r : TeamRecord) : TeamRecord :=
  mkTeamRecord (S (wins r)) (losses r) (projWins r) (projLosses r) (elo r).

Definition incLosses (r : TeamRecord) : TeamRecord :=
  mkTeamRecord (wins r) (S (losses r)) (projWins r) (projLosses r) (elo r).

Definition addProjWins (x : R) (r : TeamRecord) : TeamRecord :=
  mkTeamRecord (wins r) (losses r) (projWins r + x) (projLosses r) (elo r).

Definition addProjLosses (x : R) (r : TeamRecord) : TeamRecord :=
  mkTeamRecord (wins r) (losses r) (projWins r) (projLosses r + x) (elo r).

(** [Object.keys(FINAL_RATINGS).forEach(team => records[team] = {...})] *)
Definition initRecords (G : Globals) : gmap string TeamRecord :=
  (fun r => mkTeamRecord 0 0 0 0 r) <$> FINAL_RATINGS G.

(** The body of [completedGames.forEach]. *)
Definition countGame (records : gmap string TeamRecord) (g : Game)
    : gmap string TeamRecord :=
  let records := alter incWins (winner g) records in
  alter incLosses (loser g) records.

(** [!records[homeTeam] || !records[awayTeam]] is false: the game is counted. *)
Definition counted (records : gmap string TeamRecord) (g : Game) : bool :=
  bool_decide (is_Some (records !! homeOf g)) &&
  bool_decide (is_Some (records !! awayOf g)).

(** The body of [futureGames.forEach]. *)
Definition projectGame (G : Globals) (records : gmap string TeamRecord) (g : Game)
    : gmap string TeamRecord :=
  let HFA := orDefault (home_field_advantage (CONFIG G)) 25 in
  let homeTeam := homeOf g in
  let awayTeam := awayOf g in
  if negb (counted records g) then records
  else
    let homeElo := ratingOrMean G homeTeam in
    let awayElo := ratingOrMean G awayTeam in
    let pHomeWin := getWinProbability homeElo awayElo HFA in
    let records := alter (addProjWins pHomeWin) homeTeam records in
    let records := alter (addProjLosses (1 - pHomeWin)) homeTeam records in
    let records := alter (addProjWins (1 - pHomeWin)) awayTeam records in
    alter (addProjLosses pHomeWin) awayTeam records.

Definition futureGamesOf (schedule : list Game) : list Game :=
  List.filter isFutureGame schedule.

(** The [records] object once both loops have run; [None] when the function
    returns early with the "Run ELO calculation first" message. *)
Definition generateRecordsTable (G : Globals) : option (gmap string TeamRecord) :=
  if bool_decide (SCHEDULE G = []) || bool_decide (FINAL_RATINGS G = ∅) then None
  else
    let records := initRecords G in
    let records := fold_left countGame (completedGamesOf (SCHEDULE G)) records in
    Some (fold_left (projectGame G) (futureGamesOf (SCHEDULE G)) records).

(** The values of [HFA] and [pHomeWin] in the forecast of a game, as both
    [predictGame] and [projectGame] compute them. *)
Definition homeFieldAdvantage (G : Globals) : R :=
  orDefault (home_field_advantage (CONFIG G)) 25.

Definition homeWinProbability (G : Globals) (g : Game) : R :=
  getWinProbability (ratingOrMean G (homeOf g)) (ratingOrMean G (awayOf g))
                    (homeFieldAdvantage G).

(** ** Counting the projected games

    The measures the statements about [generateRecordsTable] use. *)

(** How many of the two sides of a game a team takes. *)
Definition slotsOf (t : string) (g : Game) : nat :=
  (if decide (homeOf g = t) then 1 else 0)%nat
  + (if decide (awayOf g = t) then 1 else 0)%nat.

(** The future games the projection loop counts: both sides have a record. *)
Definition countedGames (G : Globals) : list Game :=
  List.filter (counted (initRecords G)) (futureGamesOf (SCHEDULE G)).

(** The number of sides a team takes in the counted games. *)
Definition sidesCountedFor (G : Globals) (t : string) : nat :=
  list_sum (List.map (slotsOf t) (countedGames G)).

(** The games of a list that name a team as home or as away side. *)
Definition gamesOf (t : string) (games : list Game) : list Game :=
  List.filter
    (fun g => bool_decide (homeOf g = t) || bool_decide (awayOf g = t)) games.

(** The sum of [projWins] over all teams. *)
Definition totalProjWins (records : gmap string TeamRecord) : R :=
  map_fold (fun _ r acc => projWins r + acc) 0 records.

(** ** The arithmetic in binary64

    The same lines on IEEE 754 binary64 numbers, as the code computes them:
    every [+], [-], [*], [/] below rounds to nearest.  Primitive floats have
    no [Math.pow] and no [Math.exp]; the value such a call returns is an
    argument of the function that uses it.  ECMAScript fixes
    [Math.pow(x, -0) = 1] and [Math.exp(-0) = 1]. *)

Module Binary64.
Import PrimFloat.
#[local] Set Warnings "-inexact-float".
Local Open Scope float_scope.

(** [Math.max] and [Math.min] of two numbers, neither of them NaN. *)
Definition Math_max (a b : float) : float := if a <? b then b else a.

Definition Math_min (a b : float) : float := if b <? a then b else a.


Definition expectedProb (power : float) : float := 1 / (1 + power).

Definition computeKprime (K mov eloDiffAbs wkWeight : float) : float :=
  let factor := 2.2 / ((eloDiffAbs * 0.001) + 2.2) in
  K + mov * factor * wkWeight.

(** [getWinProbability], in the same two parts. *)
Definition winExponentOf (homeElo awayElo HFA : float) : float :=
  - (homeElo + HFA - awayElo) / 400.

Definition getWinProbability (power : float) : float := 1 / (1 + power).

Record TraceRow := mkTraceRow {
  winnerPrior : float;
  loserPrior : float;
  E : float;
  mov : float;
  wkWeight : float;
  kPrime : float;
  delta : float;
  winnerAfter : float;
  loserAfter : float
}.

(** The loop body of [runEloCalculation] for a game with the scores
    [winnerScore] and [loserScore]; [power] is the value of [Math.pow] in
    [expectedProb] and [decay] the value of
    [Math.exp(-lambda * (weeksCompleted - week))]. *)
Definition traceRow (K winnerPrior loserPrior winnerScore loserScore : float)
    (power decay : float) : TraceRow :=
  let E := expectedProb power in
  let mov := Math_max 1 (winnerScore - loserScore) in
  let wkWeight := Math_min 1 decay in
  let kPrime := computeKprime K mov (abs (winnerPrior - loserPrior)) wkWeight in
  let delta := kPrime * (1 - E) in
  let winnerAfter := winnerPrior + delta in
  let loserAfter := loserPrior - delta in
  mkTraceRow winnerPrior loserPrior E mov wkWeight kPrime delta
             winnerAfter loserAfter.

(** The two projected fields of a row of the records table. *)
Record Projected := mkProjected {
  projWins : float;
  projLosses : float
}.

(** The updates of [futureGames.forEach] on the record of the home team and
    on the record of the away team of a counted game. *)
Definition projectHome (pHomeWin : float) (r : Projected) : Projected :=
  mkProjected (projWins r + pHomeWin) (projLosses r + (1 - pHomeWin)).

Definition projectAway (pHomeWin : float) (r : Projected) : Projected :=
  mkProjected (projWins r + (1 - pHomeWin)) (projLosses r + pHomeWin).


(** Scenario: default configuration, ratings A 1075, B 1500, C 650.  A hosts
    B in three future games and visits C in a fourth; in each of them the
    exponent is 1 and [Math.pow(10, 1)] is 10.  The projected fields of A
    after the four games. *)
Definition underdogProjection : Projected :=
  let pHomeWin := getWinProbability 10 in
  projectAway pHomeWin
    (projectHome pHomeWin
       (projectHome pHomeWin
          (projectHome pHomeWin (mkProjected 0 0)))).
End Binary64.

(** ** Scenario data *)

Definition defaultConfig : Config :=
  mkConfig (Some 50) (Some 25) (Some 12) (Some 1500).

(** A configuration whose home-field advantage is negative. *)
Definition negativeHfaConfig : Config :=
  mkConfig (Some 50) (Some (-25)) (Some 12) (Some 1500).

Definition ratingsAB : gmap string R := <["A" := 1500]> (<["B" := 1500]> ∅).

(** Week 1: A beats B 24-10 at home. *)
Definition gameAB : Game := mkGame 1 "A" (Some 24) false "B" (Some 10).

(** Week 2: A hosts B again, not played yet. *)
Definition gameABnext : Game := mkGame 2 "A" None false "B" None.

(** Week 2: A hosts the unrated team C, not played yet. *)
Definition gameAC : Game := mkGame 2 "A" None false "C" None.

(** A row with the winner's score filled in and the loser's left blank. *)
Definition gameHalf : Game := mkGame 1 "A" (Some 24) false "B" None.

(** A future row that lists A on both sides. *)
Definition gameAA : Game := mkGame 2 "A" None false "A" None.

(** A completed row whose loser cell is empty. *)
Definition gameNoLoser : Game :=
  mkGame 1 "A" (Some 24) false EmptyString (Some 10).

Definition globalsAB : Globals :=
  mkGlobals ratingsAB [gameAB; gameABnext] defaultConfig.

(** The row the loop computes for [gameAB] in scenario 1: default
    configuration, both teams at 1500, [gameAB] the only game. *)
Definition scenarioRow : TraceRow :=
  traceRow (orDefault (K defaultConfig) 50)
           (orDefault (home_field_advantage defaultConfig) 25)
           (ln 2 / orDefault (half_life_weeks defaultConfig) 12)
           (weeksCompleted [gameAB])
           (ratingsAB !!! "A") (ratingsAB !!! "B") gameAB.

(** Scenario data in the shape of part_001. *)

Definition ratingsAB001 : gmap string Part001.number :=
  <["A" := Some 1500]> (<["B" := Some 1500]> ∅).

(** The row [1,A,TBD,,B,TBD]: the two score cells hold text. *)
Definition rowTextScores : Part001.Row :=
  Part001.mkRow 1 "A" (Part001.scored Part001.NaN) false
                "B" (Part001.scored Part001.NaN).

(** The row [1,A,24,,,10]: the loser cell is empty. *)
Definition rowNoLoser : Part001.Row :=
  Part001.mkRow 1 "A" (Part001.scored (Some 24)) false
                EmptyString (Part001.scored (Some 10)).

(** The row [2,A,,,B,]: not played yet. *)
Definition rowUnplayed : Part001.Row :=
  Part001.mkRow 2 "A" Part001.null false "B" Part001.null.


(** ** Further measures *)

(** The sum of the ratings of all teams. *)
Definition totalRating (ratings : gmap string R) : R :=
  map_fold (fun _ r acc => r + acc) 0 ratings.

#[global] Instance Req_decision (x y : R) : Decision (x = y) := Req_dec_T x y.

(** ** The counts of the records table (part_000, part_002) *)

(** The completed rows that name a team as winner, and as loser. *)
Definition gamesWonBy (t : string) (schedule : list Game) : list Game :=
  List.filter (fun g => bool_decide (winner g = t)) (completedGamesOf schedule).

Definition gamesLostBy (t : string) (schedule : list Game) : list Game :=
  List.filter (fun g => bool_decide (loser g = t)) (completedGamesOf schedule).

(** ** The dropdowns: [populateDropdowns]

    The options are given as the set of teams (their alphabetical order in
    the list is left out) and as the list of weeks. *)

(** [if (g.winner) teamsSet.add(g.winner); if (g.loser) teamsSet.add(g.loser)] *)
Definition addTeams (teamsSet : gset string) (g : Game) : gset string :=
  let teamsSet :=
    if falsy (winner g) then teamsSet else {[winner g]} ∪ teamsSet in
  if falsy (loser g) then teamsSet else {[loser g]} ∪ teamsSet.

(** [new Set(Object.keys(ratings))], then [schedule.forEach]. *)
Definition teamOptions (schedule : list Game) (ratings : gmap string R)
    : gset string :=
  fold_left addTeams schedule (dom ratings).

(** [Array.from(new Set(l))]: the distinct values, in order of first
    occurrence. *)
Fixpoint distinct (l : list Z) : list Z :=
  match l with
  | [] => []
  | x :: t => x :: List.filter (fun y => negb (y =? x)%Z) (distinct t)
  end.

(** [....sort((a,b) => a - b)] *)
Definition sortAscending (l : list Z) : list Z :=
  stableSort (fun a b => (a <=? b)%Z) l.

(** The weeks offered by src/elo.js and part_002: every week of the schedule. *)
Definition weekOptions (schedule : list Game) : list Z :=
  sortAscending (distinct (List.map week schedule)).

(** The weeks offered by part_000: the weeks that have a future game. *)
Definition futureWeekOptions (schedule : list Game) : list Z :=
  sortAscending (distinct (List.map week (futureGamesOf schedule))).

(** ** The teams the rating loop rates *)

(** [t] is on one side of [g], a completed row the loop does not skip. *)
Definition playedIn (t : string) (g : Game) : Prop :=
  isCompletedGame g = true /\
  falsy (winner g) || falsy (loser g) = false /\
  (winner g = t \/ loser g = t).

(** ** Reading a score cell: [toNum] (src/elo.js), [parseScore] (part_000)

    The cell is a string of bytes; a character outside ASCII is a run of
    bytes above 127, none of which the pattern keeps.  [Number] is applied to
    a text made of digits, dots and minus signs only, where it reads a
    decimal literal with an optional leading minus sign, gives 0 for the
    empty text and NaN otherwise. *)

Definition isDigit (c : ascii) : bool :=
  (48 <=? nat_of_ascii c)%nat && (nat_of_ascii c <=? 57)%nat.

(** The characters [/[^\d.-]/g] does not remove. *)
Definition keptChar (c : ascii) : bool :=
  isDigit c || bool_decide (c = "."%char) || bool_decide (c = "-"%char).

(** [v.replace(/[^\d.-]/g, '')] *)
Fixpoint cleaned (v : string) : string :=
  match v with
  | EmptyString => EmptyString
  | String c s => if keptChar c then String c (cleaned s) else cleaned s
  end.

Fixpoint allDigits (s : string) : bool :=
  match s with
  | EmptyString => true
  | String c s => isDigit c && allDigits s
  end.

(** The number a run of decimal digits denotes, after the digits [acc]. *)
Fixpoint decimalValue (acc : Z) (s : string) : Z :=
  match s with
  | EmptyString => acc
  | String c s => decimalValue (10 * acc + (Z.of_nat (nat_of_ascii c) - 48)) s
  end.

(** The text before the first dot and, when there is a dot, the text after. *)
Fixpoint splitDot (s : string) : string * option string :=
  match s with
  | EmptyString => (EmptyString, None)
  | String c s =>
      if bool_decide (c = "."%char) then (EmptyString, Some s)
      else let '(int, frac) := splitDot s in (String c int, frac)
  end.

(** An unsigned decimal literal: digits, digits with a dot and optional
    digits, or a dot with digits.  [None] stands for NaN. *)
Definition unsignedLiteral (s : string) : option R :=
  match splitDot s with
  | (int, None) =>
      if allDigits int && negb (falsy int)
      then Some (IZR (decimalValue 0 int)) else None
  | (int, Some frac) =>
      if allDigits int && allDigits frac && negb (falsy int && falsy frac)
      then Some (IZR (decimalValue 0 (int +:+ frac)) / 10 ^ String.length frac)
      else None
  end.

(** [Number(cleaned)] on a text of digits, dots and minus signs. *)
Definition stringToNumber (s : string) : option R :=
  match s with
  | EmptyString => Some 0
  | String c rest =>
      if bool_decide (c = "-"%char) then Ropp <$> unsignedLiteral rest
      else unsignedLiteral s
  end.

(** [toNum]: [null] for an empty cell and for NaN. *)
Definition toNum (v : string) : option R :=
  if falsy v then None else stringToNumber (cleaned v).

(** ** Reordering a fold

    Two lists are similar when one is obtained from the other by exchanging
    neighbours that have the same key and whose steps commute. *)

Section Similar.
Context {A M : Type} (f : M -> A -> M) (key : A -> Z).

Definition commute (x y : A) : Prop := forall m, f (f m x) y = f (f m y) x.

Inductive similar : list A -> list A -> Prop :=
| similar_nil : similar [] []
| similar_skip x l l' : similar l l' -> similar (x :: l) (x :: l')
| similar_swap x y l :
    key x = key y -> commute x y -> similar (x :: y :: l) (y :: x :: l)
| similar_trans l1 l2 l3 : similar l1 l2 -> similar l2 l3 -> similar l1 l3.
End Similar.

(** Two rows share a team. *)
Definition shareTeam (x y : Game) : Prop :=
  winner x = winner y \/ winner x = loser y \/
  loser x = winner y \/ loser x = loser y.

(** ** More scenario data *)

(** Week 1: C beats D 17-14 at home. *)
Definition gameCD : Game := mkGame 1 "C" (Some 17) false "D" (Some 14).

(** ** [clamp] (src/unnamed/part_001) *)

Definition clamp (v lo hi : R) : R := Rmax lo (Rmin hi v).

(** * Properties *)

(** ** The logistic curve *)

Lemma pow10_pos (x : R) : 0 < Rpower 10 x.
Proof. unfold Rpower. apply exp_pos. Qed.

Lemma pow10_lt (x y : R) : x < y -> Rpower 10 x < Rpower 10 y.
Proof. intros Hxy. apply Rpower_lt; lra. Qed.

(** [1 / (1 + u)] is decreasing in [u] on the positive half-line. *)
Lemma logistic_anti (u v : R) : 0 < u -> u < v -> 1 / (1 + v) < 1 / (1 + u).
Proof.
  intros Hu Huv. unfold Rdiv. rewrite !Rmult_1_l.
  apply Rinv_lt_contravar; [nra | lra].
Qed.

Lemma logistic_range (u : R) : 0 < u -> 0 < 1 / (1 + u) < 1.
Proof.
  intros Hu. split.
  - apply Rdiv_lt_0_compat; lra.
  - apply (Rmult_lt_reg_r (1 + u)); [lra |]. field_simplify; lra.
Qed.

Lemma getWinProbability_range (h a hfa : R) : 0 < getWinProbability h a hfa < 1.
Proof. unfold getWinProbability. apply logistic_range, pow10_pos. Qed.

Lemma expectedProb_range (w l adj : R) : 0 < expectedProb w l adj < 1.
Proof. unfold expectedProb. apply logistic_range, pow10_pos. Qed.

Section SaturationInBinary64.
Import PrimFloat.
#[local] Set Warnings "-inexact-float".

(** C8, as stated, fails on the code: for a home rating of 20000 against 0
    the exponent is -50 and the power, about 1e-50, is absorbed in
    [1 + power]: the binary64 result is exactly 1.  A home rating of 24000
    gives exactly 1 again, so the value is not below 1 and does not
    increase with the home rating there. *)
Lemma getWinProbability_saturates :
  (Binary64.winExponentOf 20000 0 0 = -50 /\
   Binary64.getWinProbability 1e-50 = 1 /\
   Binary64.winExponentOf 24000 0 0 = -60 /\
   Binary64.getWinProbability 1e-60 = 1)%float.
Proof. repeat split. Qed.
End SaturationInBinary64.

(** C8, amended. Over the real numbers [getWinProbability] divides by a
    positive number on every input, its value lies strictly between 0 and
    1, it is strictly increasing in the home rating and strictly decreasing
    in the away rating. *)
Theorem getWinProbability_monotone (homeElo awayElo HFA : R) :
  0 < 1 + Rpower 10 (- (homeElo + HFA - awayElo) / 400) /\
  0 < getWinProbability homeElo awayElo HFA < 1 /\
  (forall homeElo', homeElo < homeElo' ->
     getWinProbability homeElo awayElo HFA < getWinProbability homeElo' awayElo HFA) /\
  (forall awayElo', awayElo < awayElo' ->
     getWinProbability homeElo awayElo' HFA < getWinProbability homeElo awayElo HFA).
Proof.
  split; [pose proof (pow10_pos (- (homeElo + HFA - awayElo) / 400)); lra |].
  split; [apply getWinProbability_range |].
  split; intros x Hx; unfold getWinProbability;
    (apply logistic_anti; [apply pow10_pos | apply pow10_lt; lra]).
Qed.

Lemma getWinProbability_monotone_witness :
  getWinProbability 1500 1500 25 < getWinProbability 1600 1500 25 /\
  getWinProbability 1500 1600 25 < getWinProbability 1500 1500 25.
Proof.
  destruct (getWinProbability_monotone 1500 1500 25) as (_ & _ & Hh & Ha).
  split; [apply Hh | apply Ha]; lra.
Defined.

(** ** The effective K-factor *)

Lemma ln_2_lt_1 : ln 2 < 1.
Proof.
  assert (H : ln 2 < ln (exp 1)).
  { apply ln_increasing; [lra |]. pose proof (exp_ineq1 1). lra. }
  now rewrite ln_exp in H.
Qed.

(** C2, as stated, fails: with K = 50 and a one-point win between equally
    rated teams in the latest week, src/elo.js gives 51 and part_001 gives
    50 * ln 2, which is below 50. *)
Lemma computeKprime_variants_differ :
  computeKprime 50 1 0 1 <> Part001.computeKprime 50 1 0 1.
Proof.
  unfold computeKprime, Part001.computeKprime.
  replace (1 + 1) with 2 by lra.
  pose proof ln_2_lt_1 as Hln. intros Heq.
  assert (H51 : 50 + 1 * (2.2 / (0 * 0.001 + 2.2)) * 1 = 51) by (field_simplify; lra).
  assert (Hf : 50 * ln 2 * (2.2 / (0 * 0.001 + 2.2)) * 1 = 50 * ln 2)
    by (field_simplify; lra).
  rewrite H51, Hf in Heq. lra.
Qed.

(** C2, amended. On every input the K-factor of src/elo.js is the additive
    form [K + mov * (2.2 / (eloDiffAbs * 0.001 + 2.2)) * weekWeight], and so
    are the ones of part_000 and part_002; the one of part_001 is the
    logarithmic form [K * ln (mov + 1) * factor * weekWeight].  Called on the
    distance of the two prior ratings, as the rating loop does, the additive
    form is the K' of the specification. *)
Theorem computeKprime_forms (K m eloDiffAbs weekWeight : R) :
  computeKprime K m eloDiffAbs weekWeight
    = K + m * (2.2 / (eloDiffAbs * 0.001 + 2.2)) * weekWeight /\
  Part000.computeKFactor K m eloDiffAbs weekWeight
    = computeKprime K m eloDiffAbs weekWeight /\
  Part002.computeKprime K m eloDiffAbs weekWeight
    = computeKprime K m eloDiffAbs weekWeight /\
  Part001.computeKprime K m eloDiffAbs weekWeight
    = K * ln (m + 1) * (2.2 / (eloDiffAbs * 0.001 + 2.2)) * weekWeight /\
  (forall winnerPrior loserPrior,
     computeKprime K m (Rabs (winnerPrior - loserPrior)) weekWeight
     = Kprime_spec K m winnerPrior loserPrior weekWeight) /\
  (forall HFA lambda weeksCompleted winnerPrior loserPrior g,
     let row := traceRow K HFA lambda weeksCompleted winnerPrior loserPrior g in
     kPrime row
     = Kprime_spec K (mov row) winnerPrior loserPrior (wkWeight row)).
Proof.
  unfold computeKprime, Part000.computeKFactor, Part002.computeKprime,
    Part001.computeKprime, Kprime_spec. repeat split; reflexivity.
Qed.

(** ** Sorting keeps the elements *)

Lemma In_insertSorted {A} (le : A -> A -> bool) (x y : A) (l : list A) :
  In y (insertSorted le x l) <-> y = x \/ In y l.
Proof.
  induction l as [| h t IH]; simpl.
  - intuition.
  - destruct (le x h); simpl; [intuition | rewrite IH; intuition].
Qed.

Lemma In_stableSort {A} (le : A -> A -> bool) (y : A) (l : list A) :
  In y (stableSort le l) <-> In y l.
Proof.
  induction l as [| h t IH]; simpl; [reflexivity |].
  rewrite In_insertSorted, IH. intuition.
Qed.

(** Games of the same week keep the order of the schedule. *)
Example sortByWeek_stable :
  sortByWeek [gameABnext; gameAB; gameAC; gameHalf]
  = [gameAB; gameHalf; gameABnext; gameAC].
Proof. reflexivity. Qed.

Lemma In_completedGamesOf (g : Game) (schedule : list Game) :
  In g (completedGamesOf schedule) <-> In g schedule /\ isCompletedGame g = true.
Proof. unfold completedGamesOf. apply filter_In. Qed.

Lemma In_futureGamesOf (g : Game) (schedule : list Game) :
  In g (futureGamesOf schedule) <-> In g schedule /\ isFutureGame g = true.
Proof. unfold futureGamesOf. apply filter_In. Qed.

(** ** One step of the rating fold *)

Section EngineFacts.
Variables (K HFA lambda meanElo : R) (weeksCompleted : Z).

Abbreviation step := (processGame K HFA lambda meanElo weeksCompleted).

Lemma seed_lookup_same (t : string) (ratings : gmap string R) :
  is_Some (seed meanElo t ratings !! t).
Proof.
  unfold seed. destruct (ratings !! t) eqn:Ht; [rewrite Ht; eauto |].
  rewrite lookup_insert_eq. eauto.
Qed.

Lemma seed_lookup_other (t u : string) (ratings : gmap string R) :
  t <> u -> seed meanElo t ratings !! u = ratings !! u.
Proof.
  intros Hne. unfold seed. destruct (ratings !! t); [reflexivity |].
  now rewrite lookup_insert_ne.
Qed.

Lemma seed_keeps (t u : string) (r : R) (ratings : gmap string R) :
  ratings !! u = Some r -> seed meanElo t ratings !! u = Some r.
Proof.
  intros Hu. destruct (decide (t = u)) as [-> | Hne].
  - unfold seed. now rewrite Hu.
  - now rewrite seed_lookup_other.
Qed.

(** A team that is neither side of the game keeps its entry, present or
    absent. *)
Lemma processGame_frame (ratings : gmap string R) (g : Game) (t : string) :
  (falsy (winner g) || falsy (loser g) = false -> winner g <> t /\ loser g <> t) ->
  step ratings g !! t = ratings !! t.
Proof.
  intros Hout. unfold processGame.
  destruct (falsy (winner g) || falsy (loser g)) eqn:Hskip; [reflexivity |].
  destruct (Hout eq_refl) as [Hw Hl]. cbv zeta.
  rewrite lookup_insert_ne, lookup_insert_ne by assumption.
  now rewrite !seed_lookup_other.
Qed.

Lemma processGame_keeps_keys (ratings : gmap string R) (g : Game) (t : string) :
  is_Some (ratings !! t) -> is_Some (step ratings g !! t).
Proof.
  intros [r Hr]. unfold processGame.
  destruct (falsy (winner g) || falsy (loser g)); [eauto |]. cbv zeta.
  destruct (decide (loser g = t)) as [-> | Hl]; [rewrite lookup_insert_eq; eauto |].
  rewrite lookup_insert_ne by assumption.
  destruct (decide (winner g = t)) as [-> | Hw]; [rewrite lookup_insert_eq; eauto |].
  rewrite lookup_insert_ne by assumption.
  exists r. now apply seed_keeps, seed_keeps.
Qed.

Lemma processGame_adds_sides (ratings : gmap string R) (g : Game) :
  falsy (winner g) || falsy (loser g) = false ->
  is_Some (step ratings g !! winner g) /\ is_Some (step ratings g !! loser g).
Proof.
  intros Hskip. unfold processGame. rewrite Hskip. cbv zeta. split.
  - destruct (decide (loser g = winner g)) as [-> | Hne].
    + rewrite lookup_insert_eq. eauto.
    + rewrite lookup_insert_ne, lookup_insert_eq by assumption. eauto.
  - rewrite lookup_insert_eq. eauto.
Qed.

(** *** The fold *)

Lemma fold_frame (games : list Game) (ratings : gmap string R) (t : string) :
  (forall g, In g games ->
     falsy (winner g) || falsy (loser g) = false -> winner g <> t /\ loser g <> t) ->
  fold_left step games ratings !! t = ratings !! t.
Proof.
  revert ratings. induction games as [| g gs IH]; intros ratings Hout; simpl.
  - reflexivity.
  - rewrite IH by (intros g' Hin; apply Hout; now right).
    apply processGame_frame, Hout. now left.
Qed.

Lemma fold_keeps_keys (games : list Game) (ratings : gmap string R) (t : string) :
  is_Some (ratings !! t) -> is_Some (fold_left step games ratings !! t).
Proof.
  revert ratings. induction games as [| g gs IH]; intros ratings Ht; simpl.
  - assumption.
  - now apply IH, processGame_keeps_keys.
Qed.

Lemma fold_adds_sides (games : list Game) (ratings : gmap string R) (g : Game) :
  In g games ->
  falsy (winner g) || falsy (loser g) = false ->
  is_Some (fold_left step games ratings !! winner g) /\
  is_Some (fold_left step games ratings !! loser g).
Proof.
  revert ratings. induction games as [| h gs IH]; intros ratings Hin Hskip; simpl.
  - destruct Hin.
  - destruct Hin as [-> | Hin].
    + destruct (processGame_adds_sides ratings g Hskip).
      split; now apply fold_keeps_keys.
    + now apply IH.
Qed.
End EngineFacts.

(** ** The update is a symmetric exchange *)

Lemma closeness_factor_range (d : R) : 0 < 2.2 / (Rabs d * 0.001 + 2.2) <= 1.
Proof.
  pose proof (Rabs_pos d) as Hd.
  split.
  - apply Rdiv_lt_0_compat; lra.
  - apply (Rmult_le_reg_r (Rabs d * 0.001 + 2.2)); [lra |].
    unfold Rdiv. rewrite Rmult_assoc, Rinv_l by lra. lra.
Qed.

Lemma wkWeight_range (K HFA lambda : R) (wc : Z) (wp lp : R) (g : Game) :
  0 < wkWeight (traceRow K HFA lambda wc wp lp g) <= 1.
Proof.
  unfold traceRow. cbn [wkWeight]. split; [| apply Rmin_l].
  apply Rmin_glb_lt; [lra | apply exp_pos].
Qed.

Lemma kPrime_positive (K HFA lambda : R) (wc : Z) (wp lp : R) (g : Game) :
  0 <= K -> 0 < kPrime (traceRow K HFA lambda wc wp lp g).
Proof.
  intros HK.
  pose proof (wkWeight_range K HFA lambda wc wp lp g) as Hw.
  pose proof (closeness_factor_range (wp - lp)) as Hf.
  unfold traceRow in *. cbn [kPrime wkWeight] in *.
  assert (Hm : 1 <= Rmax 1 (ToNumber (winnerScore g) - ToNumber (loserScore g)))
    by apply Rmax_l.
  unfold computeKprime. cbv zeta.
  set (m := Rmax 1 (ToNumber (winnerScore g) - ToNumber (loserScore g))) in *.
  set (f := 2.2 / (Rabs (wp - lp) * 0.001 + 2.2)) in *.
  set (w := Rmin 1 (exp (- lambda * IZR (wc - week g)))) in *.
  assert (Hmf : 0 < m * f) by nra.
  assert (Hmfw : 0 < m * f * w) by nra.
  lra.
Qed.


Section ExchangeInBinary64.
Import PrimFloat.

End ExchangeInBinary64.



(** ** Completed and future games *)

(** C4, as stated, fails: a game with exactly one score is not completed,
    and it is not selected as a future game either; [predictWeek] and
    [predictTeam] print nothing for it. *)
Lemma one_score_game_not_future :
  isCompletedGame gameHalf = false /\
  isFutureGame gameHalf = false /\
  futureGamesOf [gameHalf] = [] /\
  predictWeek (mkGlobals ratingsAB [gameHalf] defaultConfig) 1 = [] /\
  predictTeam (mkGlobals ratingsAB [gameHalf] defaultConfig) "A" = [].
Proof. repeat split. Qed.

(** C4, amended. A game is completed exactly when both scores are finite and
    is selected as a future game exactly when neither is; the two classes are
    disjoint, and a game with exactly one finite score is in neither. *)
Theorem game_classification (g : Game) (schedule : list Game) :
  (isCompletedGame g = true <->
     is_Some (winnerScore g) /\ is_Some (loserScore g)) /\
  (isFutureGame g = true <-> winnerScore g = None /\ loserScore g = None) /\
  (In g (completedGamesOf schedule) <->
     In g schedule /\ is_Some (winnerScore g) /\ is_Some (loserScore g)) /\
  (In g (futureGamesOf schedule) <->
     In g schedule /\ winnerScore g = None /\ loserScore g = None) /\
  (isCompletedGame g = false /\ isFutureGame g = false <->
     (is_Some (winnerScore g) /\ loserScore g = None) \/
     (winnerScore g = None /\ is_Some (loserScore g))).
Proof.
  assert (Hc : isCompletedGame g = true <->
               is_Some (winnerScore g) /\ is_Some (loserScore g)).
  { unfold isCompletedGame.
    destruct (winnerScore g), (loserScore g); simpl; split;
      try discriminate; try (intros [[? ?] [? ?]]; discriminate); eauto. }
  assert (Hf : isFutureGame g = true <-> winnerScore g = None /\ loserScore g = None).
  { unfold isFutureGame.
    destruct (winnerScore g), (loserScore g); simpl; split;
      try discriminate; try (intros [? ?]; discriminate); eauto. }
  split; [exact Hc |]. split; [exact Hf |].
  split; [rewrite In_completedGamesOf, Hc; reflexivity |].
  split; [rewrite In_futureGamesOf, Hf; reflexivity |].
  unfold isCompletedGame, isFutureGame.
  destruct (winnerScore g), (loserScore g); simpl; split;
    try (intros [? ?]; discriminate);
    try (intros [[[? ?] ?] | [? [? ?]]]; discriminate);
    eauto.
Qed.

(** ** The rating fold as a whole *)

Lemma finalRatings_fold (startingElo : gmap string R) (config : Config)
    (schedule : list Game) :
  finalRatings startingElo config schedule
  = fold_left
      (processGame (orDefault (K config) 50)
                   (orDefault (home_field_advantage config) 25)
                   (ln 2 / orDefault (half_life_weeks config) 12)
                   (orDefault (mean_elo config) 1500)
                   (weeksCompleted schedule))
      (sortByWeek (completedGamesOf schedule)) startingElo.
Proof.
  unfold finalRatings, weeksCompleted.
  destruct (completedGamesOf schedule); reflexivity.
Qed.

Lemma In_sorted_completed (g : Game) (schedule : list Game) :
  In g (sortByWeek (completedGamesOf schedule)) <->
  In g schedule /\ isCompletedGame g = true.
Proof. unfold sortByWeek. now rewrite In_stableSort, In_completedGamesOf. Qed.

Lemma no_completed_games (schedule : list Game) :
  (forall g, In g schedule -> isCompletedGame g = false) ->
  completedGamesOf schedule = [].
Proof.
  intros Hnone. unfold completedGamesOf.
  induction schedule as [| g gs IH]; simpl; [reflexivity |].
  rewrite (Hnone g) by now left. apply IH. intros g' Hin. apply Hnone. now right.
Qed.

(** C5, as stated, fails: C is scheduled against A in a future game and is
    not in the starting ratings; the final ratings have no entry for C. *)
Lemma future_only_team_unrated :
  In gameAC [gameAB; gameAC] /\ falsy (loser gameAC) = false /\
  finalRatings ratingsAB defaultConfig [gameAB; gameAC] !! loser gameAC = None.
Proof.
  split; [right; now left |]. split; [reflexivity |].
  rewrite finalRatings_fold. rewrite fold_frame; [reflexivity |].
  intros g Hin _. apply In_sorted_completed in Hin as [Hin Hdone].
  destruct Hin as [<- | [<- | []]]; [split; discriminate | discriminate].
Qed.

(** A team the ratings do not have is read at [mean_elo] once the two
    seeding lines of an iteration that names it have run. *)
Lemma seeded_at_mean (meanElo : R) (ratings : gmap string R) (g : Game) (t : string) :
  ratings !! t = None -> winner g = t \/ loser g = t ->
  seed meanElo (loser g) (seed meanElo (winner g) ratings) !! t = Some meanElo.
Proof.
  intros Ht Hside.
  destruct (decide (winner g = t)) as [Hw | Hw].
  - apply seed_keeps. rewrite Hw. unfold seed. rewrite Ht.
    apply lookup_insert_eq.
  - destruct Hside as [Hw' | Hl]; [contradiction |].
    rewrite Hl. unfold seed at 1.
    rewrite seed_lookup_other, Ht by assumption. apply lookup_insert_eq.
Qed.

(** C5, amended. The final ratings keep every key of the starting ratings and
    have an entry for both sides of every completed game whose two
    identifiers are non-empty; a team outside the starting ratings that is on
    no such game (it only has future games, or rows that are skipped) gets no
    entry.  A team outside the starting ratings enters at [mean_elo]: in the
    first iteration that names it and is not skipped, [pre] being the games
    processed before, the entry made for it holds [mean_elo] and that is
    the prior rating of the update. *)
Theorem finalRatings_covers (startingElo : gmap string R) (config : Config)
    (schedule : list Game) :
  let final := finalRatings startingElo config schedule in
  let K := orDefault (K config) 50 in
  let HFA := orDefault (home_field_advantage config) 25 in
  let lambda := ln 2 / orDefault (half_life_weeks config) 12 in
  let meanElo := orDefault (mean_elo config) 1500 in
  let step := processGame K HFA lambda meanElo (weeksCompleted schedule) in
  (forall t, is_Some (startingElo !! t) -> is_Some (final !! t)) /\
  (forall g, In g schedule -> isCompletedGame g = true ->
     falsy (winner g) || falsy (loser g) = false ->
     is_Some (final !! winner g) /\ is_Some (final !! loser g)) /\
  (forall t, startingElo !! t = None ->
     (forall g, In g schedule -> isCompletedGame g = true ->
        falsy (winner g) || falsy (loser g) = false ->
        winner g <> t /\ loser g <> t) ->
     final !! t = None) /\
  (forall pre g post t,
     sortByWeek (completedGamesOf schedule) = pre ++ g :: post ->
     startingElo !! t = None ->
     (forall g', In g' pre -> falsy (winner g') || falsy (loser g') = false ->
        winner g' <> t /\ loser g' <> t) ->
     falsy (winner g) || falsy (loser g) = false ->
     winner g = t \/ loser g = t ->
     let ratings := fold_left step pre startingElo in
     let seeded := seed meanElo (loser g) (seed meanElo (winner g) ratings) in
     let row :=
       traceRow K HFA lambda (weeksCompleted schedule)
                (seeded !!! winner g) (seeded !!! loser g) g in
     final = fold_left step post (step ratings g) /\
     step ratings g
       = <[loser g := loserAfter row]> (<[winner g := winnerAfter row]> seeded) /\
     ratings !! t = None /\
     seeded !! t = Some meanElo /\
     (winner g = t -> winnerPrior row = meanElo) /\
     (loser g = t -> loserPrior row = meanElo)).
Proof.
  cbv zeta. rewrite finalRatings_fold. split; [| split; [| split]].
  - intros t Ht. now apply fold_keeps_keys.
  - intros g Hin Hdone Hskip.
    apply fold_adds_sides; [now apply In_sorted_completed | assumption].
  - intros t Ht Hout. rewrite fold_frame; [assumption |].
    intros g Hin. apply In_sorted_completed in Hin as [Hin Hdone]. now apply Hout.
  - intros pre g post t Hsplit Ht Hpre Hskip Hside.
    set (step := processGame _ _ _ _ _).
    assert (Hbefore : fold_left step pre startingElo !! t = None)
      by (unfold step; rewrite fold_frame; assumption).
    pose proof (seeded_at_mean (orDefault (mean_elo config) 1500) _ g t
                  Hbefore Hside) as Hseeded.
    split; [rewrite Hsplit, fold_left_app; reflexivity |].
    split; [unfold step, processGame; rewrite Hskip; reflexivity |].
    split; [exact Hbefore |]. split; [exact Hseeded |].
    split; intros Heq; cbn [winnerPrior loserPrior traceRow];
      apply lookup_total_correct; rewrite <- Heq in Hseeded; exact Hseeded.
Qed.

Lemma finalRatings_covers_witness :
  is_Some (finalRatings ∅ defaultConfig [gameAB; gameAC] !! "A") /\
  is_Some (finalRatings ∅ defaultConfig [gameAB; gameAC] !! "B") /\
  finalRatings ∅ defaultConfig [gameAB; gameAC] !! "C" = None /\
  seed 1500 "B" (seed 1500 "A" ∅) !! "A" = Some 1500.
Proof.
  destruct (finalRatings_covers ∅ defaultConfig [gameAB; gameAC])
    as (_ & Hsides & Hnone & Hseed).
  destruct (Hsides gameAB) as [Ha Hb];
    [now left | reflexivity | reflexivity |].
  split; [exact Ha |]. split; [exact Hb |]. split.
  - apply Hnone; [reflexivity |].
    intros g [<- | [<- | []]] Hdone _; [split; discriminate | discriminate].
  - destruct (Hseed [] gameAB [] "A") as (_ & _ & _ & Hmean & _);
      [reflexivity | reflexivity | intros g' [] | reflexivity | now left |].
    exact Hmean.
Defined.

(** ** The older variant's fold

    part_001 has the same loop without the test on the identifiers: a
    completed row with an empty identifier is processed there, with the
    empty string as a team; and a row counts as completed as soon as its two
    score cells are not empty. *)

Lemma Part001_seed_lookup_other (meanElo : R) (t u : string)
    (ratings : gmap string Part001.number) :
  t <> u -> Part001.seed meanElo t ratings !! u = ratings !! u.
Proof.
  intros Hne. unfold Part001.seed. destruct (ratings !! t); [reflexivity |].
  now rewrite lookup_insert_ne.
Qed.

Lemma Part001_processGame_frame (K HFA lambda meanElo : R) (wc : Z)
    (ratings : gmap string Part001.number) (g : Part001.Row) (t : string) :
  Part001.winner g <> t -> Part001.loser g <> t ->
  Part001.processGame K HFA lambda meanElo wc ratings g !! t = ratings !! t.
Proof.
  intros Hw Hl. unfold Part001.processGame. cbv zeta.
  rewrite lookup_insert_ne, lookup_insert_ne by assumption.
  now rewrite !Part001_seed_lookup_other.
Qed.

Lemma Part001_fold_frame (K HFA lambda meanElo : R) (wc : Z)
    (games : list Part001.Row) (ratings : gmap string Part001.number) (t : string) :
  (forall g, In g games -> Part001.winner g <> t /\ Part001.loser g <> t) ->
  fold_left (Part001.processGame K HFA lambda meanElo wc) games ratings !! t
  = ratings !! t.
Proof.
  revert ratings. induction games as [| g gs IH]; intros ratings Hout; simpl.
  - reflexivity.
  - rewrite IH by (intros g' Hin; apply Hout; now right).
    destruct (Hout g) as [Hw Hl]; [now left |].
    now apply Part001_processGame_frame.
Qed.

Lemma Part001_In_sorted_completed (g : Part001.Row) (schedule : list Part001.Row) :
  In g (Part001.sortByWeek (Part001.completedGamesOf schedule)) <->
  In g schedule /\ Part001.isCompletedGame g = true.
Proof.
  unfold Part001.sortByWeek, Part001.completedGamesOf.
  rewrite In_stableSort. apply filter_In.
Qed.

Lemma Part001_no_completed_games (schedule : list Part001.Row) :
  (forall g, In g schedule ->
     Part001.winnerScore g = Part001.null \/ Part001.loserScore g = Part001.null) ->
  Part001.completedGamesOf schedule = [].
Proof.
  intros Hnone. unfold Part001.completedGamesOf.
  induction schedule as [| g gs IH]; simpl; [reflexivity |].
  assert (Hg : Part001.isCompletedGame g = false).
  { unfold Part001.isCompletedGame.
    destruct (Hnone g) as [-> | ->]; [now left | reflexivity |].
    apply andb_false_r. }
  rewrite Hg. apply IH. intros g' Hin. apply Hnone. now right.
Qed.

(** The update of part_001 for the row without a loser: the empty
    identifier is seeded at 1500 and A gains a positive amount. *)
Lemma Part001_rowNoLoser_gain :
  exists d, 0 < d /\
    Part001.finalRatings ratingsAB001 defaultConfig [rowNoLoser] !! "A"
    = Some (Some (1500 + d)).
Proof.
  unfold Part001.finalRatings. cbv zeta.
  change (Part001.completedGamesOf [rowNoLoser]) with [rowNoLoser].
  change (Part001.sortByWeek [rowNoLoser]) with [rowNoLoser].
  cbn [fold_left]. unfold Part001.processGame. cbv zeta.
  change (Part001.loser rowNoLoser) with EmptyString.
  change (Part001.winner rowNoLoser) with "A".
  rewrite lookup_insert_ne by discriminate. rewrite lookup_insert_eq.
  change (Part001.seed _ EmptyString (Part001.seed _ "A" ratingsAB001) !!! "A")
    with (Some 1500 : Part001.number).
  change (Part001.seed _ EmptyString (Part001.seed _ "A" ratingsAB001) !!! EmptyString)
    with (Some (orDefault (mean_elo defaultConfig) 1500) : Part001.number).
  cbn [mbind option_bind Part001.ToNumber Part001.winnerScore Part001.loserScore
       rowNoLoser Part001.winnerIsAway Part001.week].
  eexists. split; [| reflexivity].
  pose proof (expectedProb_range 1500 (orDefault (mean_elo defaultConfig) 1500)
                (orDefault (home_field_advantage defaultConfig) 25)) as HE.
  change (Part001.expectedProb ?a ?b ?c) with (expectedProb a b c).
  unfold Part001.computeKprime. cbv zeta.
  rewrite Rmax_right by lra.
  assert (Hln : 0 < ln (24 - 10 + 1)).
  { rewrite <- ln_1. apply ln_increasing; lra. }
  pose proof (closeness_factor_range (1500 - orDefault (mean_elo defaultConfig) 1500))
    as Hf.
  set (w := Rmin 1 (exp _)).
  assert (Hw : 0 < w) by (unfold w; apply Rmin_glb_lt; [lra | apply exp_pos]).
  change (orDefault (K defaultConfig) 50) with 50.
  set (f := 2.2 / (Rabs (1500 - orDefault (mean_elo defaultConfig) 1500) * 0.001 + 2.2)) in *.
  set (e := expectedProb _ _ _) in *.
  assert (H1 : 0 < 50 * ln (24 - 10 + 1)) by nra.
  assert (H2 : 0 < 50 * ln (24 - 10 + 1) * f) by nra.
  assert (H3 : 0 < 50 * ln (24 - 10 + 1) * f * w) by nra.
  nra.
Qed.

(** C7, as stated, fails on part_001: both score cells of the only row hold
    text, so no game has a finite score, yet the row passes the filter of
    line 75, the loop runs and the ratings of A and B become NaN. *)
Lemma text_scores_are_processed :
  Part001.winnerScore rowTextScores = Part001.scored Part001.NaN /\
  Part001.loserScore rowTextScores = Part001.scored Part001.NaN /\
  ratingsAB001 !! "A" = Some (Some 1500) /\
  Part001.finalRatings ratingsAB001 defaultConfig [rowTextScores] !! "A"
  = Some Part001.NaN /\
  Part001.finalRatings ratingsAB001 defaultConfig [rowTextScores] !! "B"
  = Some Part001.NaN /\
  Part001.weeksCompleted [rowTextScores] = 1%Z.
Proof. repeat split. Qed.

(** C7, amended. In src/elo.js, when no row has two finite scores the final
    ratings are the starting ratings, unchanged, and [weeksCompleted] is 0.
    In part_001 the same holds when every row has an empty score cell. *)
Theorem finalRatings_no_completed (config : Config) :
  (forall (startingElo : gmap string R) (schedule : list Game),
     (forall g, In g schedule -> isCompletedGame g = false) ->
     finalRatings startingElo config schedule = startingElo /\
     FINAL_RATINGS (runEloCalculation startingElo config schedule) = startingElo /\
     weeksCompleted schedule = 0%Z) /\
  (forall (startingElo : gmap string Part001.number) (schedule : list Part001.Row),
     (forall g, In g schedule ->
        Part001.winnerScore g = Part001.null \/
        Part001.loserScore g = Part001.null) ->
     Part001.finalRatings startingElo config schedule = startingElo /\
     Part001.weeksCompleted schedule = 0%Z).
Proof.
  split.
  - intros startingElo schedule Hnone. apply no_completed_games in Hnone.
    unfold runEloCalculation, finalRatings, weeksCompleted. simpl.
    rewrite Hnone. repeat split.
  - intros startingElo schedule Hnone. apply Part001_no_completed_games in Hnone.
    unfold Part001.finalRatings, Part001.weeksCompleted. cbv zeta.
    rewrite Hnone. split; reflexivity.
Qed.

Lemma finalRatings_no_completed_witness :
  (finalRatings ratingsAB defaultConfig [gameAC; gameHalf] = ratingsAB /\
   FINAL_RATINGS (runEloCalculation ratingsAB defaultConfig [gameAC; gameHalf])
     = ratingsAB /\
   weeksCompleted [gameAC; gameHalf] = 0%Z) /\
  (Part001.finalRatings ratingsAB001 defaultConfig [rowUnplayed] = ratingsAB001 /\
   Part001.weeksCompleted [rowUnplayed] = 0%Z).
Proof.
  destruct (finalRatings_no_completed defaultConfig) as [Helo H001].
  split.
  - apply Helo. intros g [<- | [<- | []]]; reflexivity.
  - apply H001. intros g [<- | []]. now left.
Defined.

(** C9, as stated, fails on part_001: the loser cell of the only row is
    empty, so A is on no completed game with two non-empty identifiers, yet
    the loop of part_001 processes the row and A ends above its starting
    rating of 1500. *)
Lemma row_without_loser_is_processed :
  Part001.loser rowNoLoser = EmptyString /\
  ratingsAB001 !! "A" = Some (Some 1500) /\
  exists d, 0 < d /\
    Part001.finalRatings ratingsAB001 defaultConfig [rowNoLoser] !! "A"
    = Some (Some (1500 + d)).
Proof.
  split; [reflexivity |]. split; [reflexivity |]. apply Part001_rowNoLoser_gain.
Qed.

(** C9, amended. In src/elo.js a team of the starting ratings that is neither
    side of any completed game with two non-empty identifiers ends with its
    starting rating.  In part_001, where no row is skipped, a team of the
    starting ratings that is neither side of any row with two scores ends
    with its starting rating. *)
Theorem finalRatings_frame (config : Config) (t : string) :
  (forall (startingElo : gmap string R) (schedule : list Game) (r : R),
     startingElo !! t = Some r ->
     (forall g, In g schedule -> isCompletedGame g = true ->
        falsy (winner g) || falsy (loser g) = false ->
        winner g <> t /\ loser g <> t) ->
     finalRatings startingElo config schedule !! t = Some r) /\
  (forall (startingElo : gmap string Part001.number) (schedule : list Part001.Row)
          (r : Part001.number),
     startingElo !! t = Some r ->
     (forall g, In g schedule -> Part001.isCompletedGame g = true ->
        Part001.winner g <> t /\ Part001.loser g <> t) ->
     Part001.finalRatings startingElo config schedule !! t = Some r).
Proof.
  split.
  - intros startingElo schedule r Ht Hout.
    rewrite finalRatings_fold, fold_frame; [assumption |].
    intros g Hin. apply In_sorted_completed in Hin as [Hin Hdone]. now apply Hout.
  - intros startingElo schedule r Ht Hout.
    unfold Part001.finalRatings. cbv zeta.
    destruct (Part001.completedGamesOf schedule) as [| g0 gs] eqn:Hdone;
      [assumption |].
    rewrite <- Hdone, Part001_fold_frame; [assumption |].
    intros g Hin. apply Part001_In_sorted_completed in Hin as [Hin Hc].
    now apply Hout.
Qed.

Lemma finalRatings_frame_witness :
  finalRatings (<["C" := 1450]> ratingsAB) defaultConfig [gameAB; gameAC] !! "C"
  = Some 1450 /\
  Part001.finalRatings ratingsAB001 defaultConfig [rowNoLoser; rowUnplayed] !! "B"
  = Some (Some 1500).
Proof.
  destruct (finalRatings_frame defaultConfig "C") as [Helo _].
  destruct (finalRatings_frame defaultConfig "B") as [_ H001].
  split.
  - apply Helo; [reflexivity |].
    intros g [<- | [<- | []]] Hdone _; [split; discriminate | discriminate].
  - apply H001; [reflexivity |].
    intros g [<- | [<- | []]] Hdone; [split; discriminate | discriminate].
Defined.

(** ** Scenario 1, computed *)

Lemma root16_of_10 : Rpower 10 (1 / 16) ^ 16 = 10.
Proof.
  rewrite <- Rpower_pow by apply pow10_pos.
  rewrite Rpower_mult, INR_IZR_INZ. change (Z.of_nat 16) with 16%Z.
  replace (1 / 16 * 16) with 1 by lra. apply Rpower_1. lra.
Qed.

Lemma root16_of_10_bounds : 1.15478 < Rpower 10 (1 / 16) < 1.15479.
Proof.
  pose proof root16_of_10 as Hpow. pose proof (pow10_pos (1 / 16)) as Hpos.
  split.
  - destruct (Rlt_le_dec 1.15478 (Rpower 10 (1 / 16))) as [Hlt | Hle]; [exact Hlt |].
    assert (Hcmp : Rpower 10 (1 / 16) ^ 16 <= 1.15478 ^ 16)
      by (apply pow_incr; lra).
    assert (Hnum : 1.15478 ^ 16 < 10) by (simpl; lra). lra.
  - destruct (Rlt_le_dec (Rpower 10 (1 / 16)) 1.15479) as [Hlt | Hle]; [exact Hlt |].
    assert (Hcmp : 1.15479 ^ 16 <= Rpower 10 (1 / 16) ^ 16)
      by (apply pow_incr; lra).
    assert (Hnum : 10 < 1.15479 ^ 16) by (simpl; lra). lra.
Qed.

(** The expected score of a home winner between two teams rated 1500. *)
Lemma expectedProb_scenario :
  expectedProb 1500 1500 25 = 1 / (1 + Rpower 10 (- 0.0625)) /\
  0.5359 < expectedProb 1500 1500 25 < 0.5360.
Proof.
  unfold expectedProb. cbv zeta.
  replace (- (1500 + 25 - 1500) / 400) with (- (1 / 16)) by lra.
  replace (- 0.0625) with (- (1 / 16)) by lra.
  split; [reflexivity |].
  rewrite Rpower_Ropp.
  pose proof root16_of_10_bounds as [Hlo Hhi].
  set (y := Rpower 10 (1 / 16)) in *.
  replace (1 / (1 + / y)) with (1 - / (1 + y)) by (field; lra).
  assert (H1 : / (1 + y) < / 2.15478) by (apply Rinv_lt_contravar; nra).
  assert (H2 : / 2.15479 < / (1 + y)) by (apply Rinv_lt_contravar; nra).
  assert (H3 : / 2.15478 < 0.4641)
    by (apply (Rmult_lt_reg_r 2.15478); [lra | rewrite Rinv_l; lra]).
  assert (H4 : 0.4640 < / 2.15479)
    by (apply (Rmult_lt_reg_r 2.15479); [lra | rewrite Rinv_l; lra]).
  lra.
Qed.

Lemma processGame_lookups (K HFA lambda meanElo : R) (wc : Z)
    (ratings : gmap string R) (g : Game) :
  falsy (winner g) || falsy (loser g) = false -> winner g <> loser g ->
  let before := seed meanElo (loser g) (seed meanElo (winner g) ratings) in
  let row := traceRow K HFA lambda wc (before !!! winner g) (before !!! loser g) g in
  processGame K HFA lambda meanElo wc ratings g !! winner g = Some (winnerAfter row) /\
  processGame K HFA lambda meanElo wc ratings g !! loser g = Some (loserAfter row).
Proof.
  intros Hskip Hne. cbv zeta. unfold processGame. rewrite Hskip. cbv zeta.
  rewrite lookup_insert_ne, !lookup_insert_eq by congruence. split; reflexivity.
Qed.

Lemma scenarioRow_unfold :
  scenarioRow = traceRow 50 25 (ln 2 / 12) 1 1500 1500 gameAB.
Proof. reflexivity. Qed.

Lemma scenarioRow_values :
  hfaAdj scenarioRow = 25 /\
  E scenarioRow = expectedProb 1500 1500 25 /\
  mov scenarioRow = 14 /\
  wkWeight scenarioRow = 1 /\
  kPrime scenarioRow = 64 /\
  delta scenarioRow = 64 * (1 - expectedProb 1500 1500 25).
Proof.
  assert (Hmov : Rmax 1 (24 - 10) = 14) by (rewrite Rmax_right; lra).
  assert (Hw : Rmin 1 (exp (- (ln 2 / 12) * IZR (1 - 1))) = 1).
  { change (IZR (1 - 1)) with 0. rewrite Rmult_0_r, exp_0. apply Rmin_left. lra. }
  assert (Hk : computeKprime 50 14 (Rabs (1500 - 1500)) 1 = 64).
  { replace (1500 - 1500) with 0 by lra. rewrite Rabs_R0.
    unfold computeKprime. cbv zeta. lra. }
  rewrite scenarioRow_unfold. unfold traceRow. cbn [hfaAdj E mov wkWeight kPrime delta gameAB
    winnerIsAway winnerScore loserScore week ToNumber].
  rewrite Hmov, Hw, Hk. repeat split; reflexivity.
Qed.

Lemma scenario_final :
  finalRatings ratingsAB defaultConfig [gameAB] !! "A"
    = Some (1500 + delta scenarioRow) /\
  finalRatings ratingsAB defaultConfig [gameAB] !! "B"
    = Some (1500 - delta scenarioRow).
Proof.
  rewrite finalRatings_fold.
  change (sortByWeek (completedGamesOf [gameAB])) with [gameAB].
  cbn [fold_left].
  apply (processGame_lookups 50 25 (ln 2 / 12) 1500 1 ratingsAB gameAB);
    [reflexivity | discriminate].
Qed.

(** C1, as stated, fails: the expected score the code computes is below 0.54,
    not near 0.5716, so the rating change exceeds 29.4 and the final rating of
    A exceeds 1529.4. *)
Lemma scenario_not_as_specified :
  E scenarioRow < 0.5716 - 0.03 /\
  27.42 + 2 < delta scenarioRow /\
  finalRatings ratingsAB defaultConfig [gameAB] !! "A"
    = Some (1500 + delta scenarioRow) /\
  1527.4 + 2 < 1500 + delta scenarioRow.
Proof.
  destruct scenarioRow_values as (_ & HE & _ & _ & _ & Hd).
  destruct expectedProb_scenario as [_ [Hlo Hhi]].
  destruct scenario_final as [HA _].
  repeat split; try exact HA; rewrite ?Hd, ?HE; lra.
Qed.

(** C1, amended. In scenario 1 the engine computes hfaAdj = 25,
    E = 1/(1+10^(-0.0625)) which lies between 0.5359 and 0.5360, mov = 14,
    weeksCompleted = 1, weekWeight = 1, K' = 64 and delta = 64 * (1 - E),
    between 29.69 and 29.71; the final ratings are A = 1500 + delta, between
    1529.69 and 1529.71, and B = 1500 - delta, between 1470.29 and 1470.31. *)
Theorem scenario_one :
  hfaAdj scenarioRow = 25 /\
  E scenarioRow = 1 / (1 + Rpower 10 (- 0.0625)) /\
  0.5359 < E scenarioRow < 0.5360 /\
  mov scenarioRow = 14 /\
  weeksCompleted [gameAB] = 1%Z /\
  wkWeight scenarioRow = 1 /\
  kPrime scenarioRow = 64 /\
  delta scenarioRow = 64 * (1 - E scenarioRow) /\
  29.69 < delta scenarioRow < 29.71 /\
  finalRatings ratingsAB defaultConfig [gameAB] !! "A"
    = Some (1500 + delta scenarioRow) /\
  finalRatings ratingsAB defaultConfig [gameAB] !! "B"
    = Some (1500 - delta scenarioRow) /\
  1529.69 < 1500 + delta scenarioRow < 1529.71 /\
  1470.29 < 1500 - delta scenarioRow < 1470.31.
Proof.
  destruct scenarioRow_values as (Hh & HE & Hm & Hw & Hk & Hd).
  destruct expectedProb_scenario as [Hform [Hlo Hhi]].
  destruct scenario_final as [HA HB].
  repeat split; try assumption; try reflexivity;
    rewrite ?Hd, ?HE; try exact Hform; lra.
Qed.

(** ** Forecast margins *)

Lemma ln_nonneg (x : R) : 1 <= x -> 0 <= ln x.
Proof.
  intros [Hlt | <-]; [| rewrite ln_1; lra].
  rewrite <- ln_1. left. apply ln_increasing; lra.
Qed.

Lemma ln_neg (x : R) : 0 < x < 1 -> ln x < 0.
Proof. intros [H0 H1]. rewrite <- ln_1. now apply ln_increasing. Qed.

(** The clamp leaves a probability of at least one half at least one half,
    and keeps it away from 1. *)
Lemma clamp_favoured (p : R) :
  1 / 2 <= p ->
  let pClamped := Rmin (1 - 1e-12) (Rmax 1e-12 p) in
  1 / 2 <= pClamped <= 1 - 1e-12 /\ 1 <= pClamped / (1 - pClamped).
Proof.
  intros Hp. cbv zeta.
  rewrite (Rmax_right 1e-12 p) by lra.
  set (pc := Rmin (1 - 1e-12) p).
  assert (Hpc : 1 / 2 <= pc <= 1 - 1e-12).
  { unfold pc. split; [apply Rmin_glb; lra | apply Rmin_l]. }
  split; [exact Hpc |].
  apply (Rmult_le_reg_r (1 - pc)); [lra |].
  unfold Rdiv. rewrite Rmult_assoc, Rinv_l by lra. lra.
Qed.

Section Forecast.
Variables (G : Globals) (g : Game).

Abbreviation HFA := (homeFieldAdvantage G).
Abbreviation pHomeWin := (homeWinProbability G g).

Lemma predictGame_margin :
  margin (predictGame G g)
  = ln (Rmin (1 - 1e-12) (Rmax 1e-12 (winProb (predictGame G g)))
        / (1 - Rmin (1 - 1e-12) (Rmax 1e-12 (winProb (predictGame G g)))))
    / 0.147.
Proof. reflexivity. Qed.

Lemma predictGame_home_favoured :
  0.5 < pHomeWin -> winProb (predictGame G g) = pHomeWin.
Proof.
  intros Hp. unfold predictGame. cbv zeta. simpl winProb.
  fold HFA. fold pHomeWin.
  destruct (decide (0.5 < pHomeWin)) as [_ | Hn]; [| contradiction].
  destruct (decide (homeOf g = homeOf g)) as [_ | Hn]; [reflexivity | congruence].
Qed.

Lemma predictGame_away_favoured :
  ~ 0.5 < pHomeWin -> homeOf g <> awayOf g ->
  winProb (predictGame G g) = 1 - pHomeWin.
Proof.
  intros Hp Hne. unfold predictGame. cbv zeta. simpl winProb.
  fold HFA. fold pHomeWin.
  destruct (decide (0.5 < pHomeWin)) as [Hy | _]; [contradiction |].
  destruct (decide (awayOf g = homeOf g)) as [Heq | _]; [congruence | reflexivity].
Qed.

Lemma predictGame_same_team :
  ~ 0.5 < pHomeWin -> homeOf g = awayOf g ->
  winProb (predictGame G g) = pHomeWin.
Proof.
  intros Hp Heq. unfold predictGame. cbv zeta. simpl winProb.
  fold HFA. fold pHomeWin.
  destruct (decide (0.5 < pHomeWin)) as [Hy | _]; [contradiction |].
  destruct (decide (awayOf g = homeOf g)) as [_ | Hn]; [reflexivity | congruence].
Qed.

Lemma same_team_probability :
  homeOf g = awayOf g -> 0 <= HFA -> 1 / 2 <= pHomeWin.
Proof.
  intros Heq Hhfa. unfold homeWinProbability, getWinProbability. rewrite Heq.
  set (x := - (ratingOrMean G (awayOf g) + HFA - ratingOrMean G (awayOf g)) / 400).
  assert (Hx : x <= 0) by (unfold x; lra).
  assert (Hpow : 0 < Rpower 10 x <= 1).
  { split; [apply pow10_pos |].
    destruct Hx as [Hlt | ->]; [| rewrite Rpower_O; lra].
    left. rewrite <- (Rpower_O 10) by lra. now apply pow10_lt. }
  apply (Rmult_le_reg_r (1 + Rpower 10 x)); [lra |].
  unfold Rdiv at 2. rewrite Rmult_1_l, Rinv_l by lra. lra.
Qed.

(** The forecast of a game between two different identifiers, or under a
    home-field advantage that is not negative: the reported probability is
    the favoured side's and the margin is not negative. *)
Lemma forecast_bounds :
  homeOf g <> awayOf g \/ 0 <= HFA ->
  let p := predictGame G g in
  let pClamped := Rmin (1 - 1e-12) (Rmax 1e-12 (winProb p)) in
  1 / 2 <= winProb p /\
  1e-12 <= pClamped <= 1 - 1e-12 /\
  1 / 2 <= pClamped /\
  1 <= pClamped / (1 - pClamped) /\
  margin p = ln (pClamped / (1 - pClamped)) / 0.147 /\
  0 <= margin p.
Proof.
  intros Hside. cbv zeta.
  pose proof (getWinProbability_range (ratingOrMean G (homeOf g))
                (ratingOrMean G (awayOf g)) HFA) as Hrange.
  change (getWinProbability _ _ _) with pHomeWin in Hrange.
  assert (Hp : 1 / 2 <= winProb (predictGame G g) < 1).
  { destruct (Rlt_dec 0.5 pHomeWin) as [Hy | Hn].
    - rewrite predictGame_home_favoured by assumption. lra.
    - destruct (decide (homeOf g = awayOf g)) as [Heq | Hne].
      + rewrite predictGame_same_team by assumption.
        destruct Hside as [Hne | Hhfa]; [contradiction |].
        pose proof (same_team_probability Heq Hhfa). lra.
      + rewrite predictGame_away_favoured by assumption. lra. }
  destruct (clamp_favoured (winProb (predictGame G g)) (proj1 Hp)) as [Hpc Hodds].
  rewrite predictGame_margin.
  repeat split; try lra.
  apply Rmult_le_pos; [now apply ln_nonneg | ].
  left. apply Rinv_0_lt_compat. lra.
Qed.
End Forecast.

(** Every prediction printed for a week or for a team is the forecast of a
    future game of the schedule. *)
Lemma predictions_from_future_games (G : Globals) (p : Prediction) :
  (exists wk, In p (predictWeek G wk)) \/ (exists team, In p (predictTeam G team)) ->
  exists g, In g (SCHEDULE G) /\ isFutureGame g = true /\ p = predictGame G g.
Proof.
  intros [[wk Hin] | [team Hin]].
  - unfold predictWeek, sortByWinProb in Hin.
    apply In_stableSort, in_map_iff in Hin as (g & <- & Hg).
    apply filter_In in Hg as [Hg Hsel]. apply andb_true_iff in Hsel as [_ Hfut].
    eauto.
  - unfold predictTeam in Hin. destruct (falsy team); [destruct Hin |].
    unfold sortByWinProb in Hin.
    apply In_stableSort, in_map_iff in Hin as (g & <- & Hg).
    apply filter_In in Hg as [Hg Hsel]. apply andb_true_iff in Hsel as [Hfut _].
    eauto.
Qed.

(** C6. The forecast at the failing input: a future row with the same team
    on both sides, under a home-field advantage of -25.  The home
    probability is below one half, so the projected winner is the away
    side; the test [projectedWinner === homeTeam] compares names, which are
    equal, and reports the home probability: the probability printed for
    week 2 is below one half and the margin is negative. *)
Lemma same_team_margin_negative :
  let G := mkGlobals ratingsAB [gameAA] negativeHfaConfig in
  isFutureGame gameAA = true /\
  predictWeek G 2 = [predictGame G gameAA] /\
  winProb (predictGame G gameAA) < 1 / 2 /\
  margin (predictGame G gameAA) < 0.
Proof.
  cbv zeta. set (G := mkGlobals ratingsAB [gameAA] negativeHfaConfig).
  split; [reflexivity |]. split; [reflexivity |].
  set (p := homeWinProbability G gameAA).
  assert (Hp : 0 < p < 1 / 2).
  { split; [apply getWinProbability_range |].
    unfold p, homeWinProbability, getWinProbability.
    change (ratingOrMean G (homeOf gameAA)) with 1500.
    change (ratingOrMean G (awayOf gameAA)) with 1500.
    change (homeFieldAdvantage G) with (-25).
    replace (- (1500 + -25 - 1500) / 400) with (1 / 16) by lra.
    pose proof root16_of_10_bounds as [Hlo _].
    apply (Rmult_lt_reg_r (1 + Rpower 10 (1 / 16))); [lra |].
    unfold Rdiv at 1. rewrite Rmult_1_l, Rinv_l by lra. lra. }
  assert (Hw : winProb (predictGame G gameAA) = p).
  { apply predictGame_same_team; [fold p; lra | reflexivity]. }
  split; [rewrite Hw; lra |].
  rewrite predictGame_margin, Hw.
  rewrite (Rmin_right (1 - 1e-12)) by (apply Rmax_lub; lra).
  set (pc := Rmax 1e-12 p).
  assert (Hpc : 0 < pc < 1 / 2).
  { unfold pc. split; [apply Rlt_le_trans with 1e-12; [lra | apply Rmax_l] |].
    apply Rmax_lub_lt; lra. }
  assert (Hodds : 0 < pc / (1 - pc) < 1).
  { split; [apply Rdiv_lt_0_compat; lra |].
    apply (Rmult_lt_reg_r (1 - pc)); [lra |].
    unfold Rdiv. rewrite Rmult_assoc, Rinv_l by lra. lra. }
  pose proof (ln_neg _ Hodds) as Hln.
  assert (Hk : 0 < / 0.147) by (apply Rinv_0_lt_compat; lra).
  unfold Rdiv at 1. nra.
Qed.

(** ** Projected records *)

Lemma dom_countGame (records : gmap string TeamRecord) (g : Game) :
  dom (countGame records g) = dom records.
Proof. unfold countGame. now rewrite !dom_alter_L. Qed.

Lemma dom_projectGame (G : Globals) (records : gmap string TeamRecord) (g : Game) :
  dom (projectGame G records g) = dom records.
Proof.
  unfold projectGame. destruct (negb (counted records g)); [reflexivity |].
  cbv zeta. now rewrite !dom_alter_L.
Qed.

Lemma counted_dom (m1 m2 : gmap string TeamRecord) (g : Game) :
  dom m1 = dom m2 -> counted m1 g = counted m2 g.
Proof.
  intros Hdom. unfold counted.
  f_equal; apply bool_decide_ext; rewrite <- !elem_of_dom, Hdom; reflexivity.
Qed.

Lemma filter_counted_dom (m1 m2 : gmap string TeamRecord) (l : list Game) :
  dom m1 = dom m2 -> List.filter (counted m1) l = List.filter (counted m2) l.
Proof. intros Hdom. apply List.filter_ext. intros g. now apply counted_dom. Qed.

Lemma list_sum_cons (n : nat) (l : list nat) :
  list_sum (n :: l) = (n + list_sum l)%nat.
Proof. reflexivity. Qed.

(** *** What one projected game adds to a team *)

Lemma projectGame_team (G : Globals) (records : gmap string TeamRecord) (g : Game)
    (t : string) (r : TeamRecord) :
  records !! t = Some r ->
  exists r', projectGame G records g !! t = Some r' /\
    projWins r' + projLosses r'
    = projWins r + projLosses r
      + (if counted records g then INR (slotsOf t g) else 0).
Proof.
  intros Ht. unfold projectGame.
  destruct (counted records g); simpl negb; cbv iota.
  2:{ exists r. split; [assumption | lra]. }
  cbv zeta. unfold slotsOf.
  destruct (decide (homeOf g = t)) as [Hh | Hh];
    destruct (decide (awayOf g = t)) as [Ha | Ha];
    rewrite ?Hh, ?Ha;
    repeat (rewrite lookup_alter_eq || rewrite lookup_alter_ne by assumption);
    rewrite Ht; simpl; eexists; (split; [reflexivity |]); simpl; lra.
Qed.

Lemma countGame_team (records : gmap string TeamRecord) (g : Game)
    (t : string) (r : TeamRecord) :
  records !! t = Some r ->
  exists r', countGame records g !! t = Some r' /\
    projWins r' = projWins r /\ projLosses r' = projLosses r.
Proof.
  intros Ht. unfold countGame.
  destruct (decide (winner g = t)) as [Hw | Hw];
    destruct (decide (loser g = t)) as [Hl | Hl];
    rewrite ?Hw, ?Hl;
    repeat (rewrite lookup_alter_eq || rewrite lookup_alter_ne by assumption);
    rewrite Ht; simpl; eexists; (split; [reflexivity |]); simpl; split; reflexivity.
Qed.

Lemma fold_countGame_team (games : list Game) (records : gmap string TeamRecord)
    (t : string) (r : TeamRecord) :
  records !! t = Some r ->
  exists r', fold_left countGame games records !! t = Some r' /\
    projWins r' = projWins r /\ projLosses r' = projLosses r.
Proof.
  revert records r. induction games as [| g gs IH]; intros records r Ht; simpl.
  - eauto.
  - destruct (countGame_team records g t r Ht) as (r1 & H1 & Hw & Hl).
    destruct (IH _ _ H1) as (r2 & H2 & Hw2 & Hl2).
    exists r2. split; [assumption |]. split; congruence.
Qed.

Lemma dom_fold_countGame (games : list Game) (records : gmap string TeamRecord) :
  dom (fold_left countGame games records) = dom records.
Proof.
  revert records. induction games as [| g gs IH]; intros records; simpl;
    [reflexivity | now rewrite IH, dom_countGame].
Qed.

Lemma dom_fold_projectGame (G : Globals) (games : list Game)
    (records : gmap string TeamRecord) :
  dom (fold_left (projectGame G) games records) = dom records.
Proof.
  revert records. induction games as [| g gs IH]; intros records; simpl;
    [reflexivity | now rewrite IH, dom_projectGame].
Qed.

Lemma fold_projectGame_team (G : Globals) (games : list Game)
    (records : gmap string TeamRecord) (t : string) (r : TeamRecord) :
  records !! t = Some r ->
  exists r', fold_left (projectGame G) games records !! t = Some r' /\
    projWins r' + projLosses r'
    = projWins r + projLosses r
      + INR (list_sum (List.map (slotsOf t) (List.filter (counted records) games))).
Proof.
  revert records r. induction games as [| g gs IH]; intros records r Ht.
  - exists r. split; [assumption | simpl; lra].
  - cbn [fold_left List.filter].
    destruct (projectGame_team G records g t r Ht) as (r1 & H1 & Hsum1).
    destruct (IH _ _ H1) as (r2 & H2 & Hsum2).
    exists r2. split; [assumption |].
    rewrite Hsum2, Hsum1.
    rewrite (filter_counted_dom _ records) by apply dom_projectGame.
    destruct (counted records g); cbn [List.map];
      [rewrite list_sum_cons, plus_INR |]; lra.
Qed.

(** *** The total of projected wins *)

Lemma totalProjWins_insert (k : string) (r : TeamRecord)
    (m : gmap string TeamRecord) :
  m !! k = None ->
  totalProjWins (<[k := r]> m) = projWins r + totalProjWins m.
Proof.
  intros Hk. unfold totalProjWins.
  rewrite map_fold_insert_L; [reflexivity | | assumption].
  intros; lra.
Qed.

Lemma totalProjWins_alter (f : TeamRecord -> TeamRecord) (x : R) (k : string)
    (m : gmap string TeamRecord) :
  (forall r, projWins (f r) = projWins r + x) ->
  is_Some (m !! k) ->
  totalProjWins (alter f k m) = totalProjWins m + x.
Proof.
  intros Hf [r Hr].
  rewrite <- (insert_delete_id m k r Hr).
  rewrite alter_insert_eq.
  rewrite !totalProjWins_insert by apply lookup_delete_eq.
  rewrite Hf. lra.
Qed.

Lemma totalProjWins_alter_same (f : TeamRecord -> TeamRecord) (k : string)
    (m : gmap string TeamRecord) :
  (forall r, projWins (f r) = projWins r) ->
  totalProjWins (alter f k m) = totalProjWins m.
Proof.
  intros Hf. destruct (m !! k) as [r |] eqn:Hk.
  - rewrite (totalProjWins_alter f 0); [lra | intros; rewrite Hf; lra | eauto].
  - rewrite alter_id; [reflexivity |]. intros r Hr. congruence.
Qed.

Lemma totalProjWins_zero (m : gmap string TeamRecord) :
  (forall t r, m !! t = Some r -> projWins r = 0) -> totalProjWins m = 0.
Proof.
  induction m as [| k r m Hk IH] using map_ind; intros Hzero.
  - reflexivity.
  - rewrite totalProjWins_insert by assumption.
    rewrite (Hzero k r) by apply lookup_insert_eq.
    rewrite IH; [lra |]. intros t r' Ht. apply (Hzero t).
    rewrite lookup_insert_ne; [assumption |]. intros ->. congruence.
Qed.

Lemma totalProjWins_initRecords (G : Globals) : totalProjWins (initRecords G) = 0.
Proof.
  apply totalProjWins_zero. intros t r. unfold initRecords.
  rewrite lookup_fmap. destruct (FINAL_RATINGS G !! t); simpl; [| discriminate].
  intros [= <-]. reflexivity.
Qed.

Lemma totalProjWins_countGame (records : gmap string TeamRecord) (g : Game) :
  totalProjWins (countGame records g) = totalProjWins records.
Proof. unfold countGame. now rewrite !totalProjWins_alter_same. Qed.

Lemma counted_sides (records : gmap string TeamRecord) (g : Game) :
  counted records g = true ->
  is_Some (records !! homeOf g) /\ is_Some (records !! awayOf g).
Proof.
  unfold counted. intros Hc. apply andb_true_iff in Hc as [Hh Ha].
  split; eapply bool_decide_eq_true_1; eassumption.
Qed.

Lemma totalProjWins_projectGame (G : Globals) (records : gmap string TeamRecord)
    (g : Game) :
  totalProjWins (projectGame G records g)
  = totalProjWins records + (if counted records g then 1 else 0).
Proof.
  unfold projectGame. destruct (counted records g) eqn:Hc; simpl negb; cbv iota;
    [| lra].
  destruct (counted_sides records g Hc) as [Hh Ha]. cbv zeta.
  set (p := getWinProbability _ _ _).
  rewrite (totalProjWins_alter _ 0), (totalProjWins_alter _ (1 - p)),
    (totalProjWins_alter _ 0), (totalProjWins_alter _ p);
    try (intros r; simpl; lra); try lra;
    repeat (apply lookup_alter_is_Some); assumption.
Qed.

Lemma totalProjWins_fold_countGame (games : list Game)
    (records : gmap string TeamRecord) :
  totalProjWins (fold_left countGame games records) = totalProjWins records.
Proof.
  revert records. induction games as [| g gs IH]; intros records; simpl;
    [reflexivity | now rewrite IH, totalProjWins_countGame].
Qed.

Lemma totalProjWins_fold_projectGame (G : Globals) (games : list Game)
    (records : gmap string TeamRecord) :
  totalProjWins (fold_left (projectGame G) games records)
  = totalProjWins records + INR (length (List.filter (counted records) games)).
Proof.
  revert records. induction games as [| g gs IH]; intros records.
  - simpl. lra.
  - cbn [fold_left List.filter]. rewrite IH, totalProjWins_projectGame.
    rewrite (filter_counted_dom _ records) by apply dom_projectGame.
    destruct (counted records g); [cbn [length]; rewrite S_INR |]; lra.
Qed.

Lemma sides_are_games (t : string) (games : list Game) :
  (forall g, In g games -> ~ (homeOf g = t /\ awayOf g = t)) ->
  list_sum (List.map (slotsOf t) games) = length (gamesOf t games).
Proof.
  induction games as [| g gs IH]; intros Hne; [reflexivity |].
  cbn [List.map]. rewrite list_sum_cons.
  rewrite IH by (intros g' Hin; apply Hne; now right).
  unfold gamesOf. cbn [List.filter]. unfold slotsOf.
  destruct (decide (homeOf g = t)) as [Hh | Hh];
    destruct (decide (awayOf g = t)) as [Ha | Ha].
  - destruct (Hne g); [now left | now split].
  - rewrite (bool_decide_eq_true_2 _ Hh). reflexivity.
  - rewrite (bool_decide_eq_false_2 _ Hh), (bool_decide_eq_true_2 _ Ha). reflexivity.
  - rewrite (bool_decide_eq_false_2 _ Hh), (bool_decide_eq_false_2 _ Ha). reflexivity.
Qed.

Section ProjectionInBinary64.
Import PrimFloat.

(** C10, as stated, fails on the code.  In binary64 the sums are rounded:
    with the default configuration and the ratings A 1075, B 1500, C 650,
    A hosts B three times and visits C once; every exponent is 1, every
    home probability is 1/11, and after the four games [projWins] and
    [projLosses] of A add up to 3.9999999999999996, not to 4.  And in any
    arithmetic a future row that names A on both sides is one game and
    adds 2 to [projWins + projLosses] of A. *)
Lemma projected_sums_not_exact :
  (Binary64.winExponentOf 1075 1500 25 = 1 /\
   Binary64.winExponentOf 650 1075 25 = 1 /\
   PrimFloat.eqb
     (Binary64.projWins Binary64.underdogProjection
      + Binary64.projLosses Binary64.underdogProjection) 4 = false)%float /\
  (let G := mkGlobals ratingsAB [gameAB; gameAA] defaultConfig in
   countedGames G = [gameAA] /\
   exists records r,
     generateRecordsTable G = Some records /\ records !! "A" = Some r /\
     projWins r + projLosses r = 2).
Proof.
  split; [repeat split |].
  cbv zeta. split; [reflexivity |].
  set (G := mkGlobals ratingsAB [gameAB; gameAA] defaultConfig).
  assert (Hinit : initRecords G !! "A" = Some (mkTeamRecord 0 0 0 0 1500))
    by reflexivity.
  destruct (fold_countGame_team (completedGamesOf (SCHEDULE G)) _ "A" _ Hinit)
    as (r1 & Hr1 & Hp1 & Hl1).
  destruct (fold_projectGame_team G (futureGamesOf (SCHEDULE G)) _ "A" r1 Hr1)
    as (r2 & Hr2 & Hsum).
  exists (fold_left (projectGame G) (futureGamesOf (SCHEDULE G))
            (fold_left countGame (completedGamesOf (SCHEDULE G)) (initRecords G))), r2.
  split; [reflexivity |]. split; [exact Hr2 |].
  rewrite (filter_counted_dom _ (initRecords G)) in Hsum
    by apply dom_fold_countGame.
  change (List.filter (counted (initRecords G)) (futureGamesOf (SCHEDULE G)))
    with [gameAA] in Hsum.
  change (list_sum (List.map (slotsOf "A") [gameAA])) with 2%nat in Hsum.
  rewrite Hsum, Hp1, Hl1. simpl. lra.
Qed.
End ProjectionInBinary64.

(** C10, amended. Over the real numbers a counted future game adds, for
    every team, as many expected games to [projWins + projLosses] as the
    team has sides in it (one for the home team, one for the away team),
    and adds exactly 1 to the total of [projWins]; hence in the finished
    table [projWins + projLosses] of a team is the number of sides it takes
    in counted future games, which is the number of its counted future
    games when none of them names it on both sides, and the total of
    [projWins] is the number of counted games. *)
Theorem projected_records_count (G : Globals) (records : gmap string TeamRecord) :
  generateRecordsTable G = Some records ->
  (forall recs g t r, counted recs g = true -> recs !! t = Some r ->
     exists r', projectGame G recs g !! t = Some r' /\
       projWins r' + projLosses r'
       = projWins r + projLosses r + INR (slotsOf t g)) /\
  (forall recs g, counted recs g = true ->
     totalProjWins (projectGame G recs g) = totalProjWins recs + 1) /\
  (forall t r, records !! t = Some r ->
     projWins r + projLosses r = INR (sidesCountedFor G t)) /\
  (forall t r, records !! t = Some r ->
     (forall g, In g (countedGames G) -> ~ (homeOf g = t /\ awayOf g = t)) ->
     projWins r + projLosses r = INR (length (gamesOf t (countedGames G)))) /\
  totalProjWins records = INR (length (countedGames G)).
Proof.
  intros Hrun. unfold generateRecordsTable in Hrun.
  destruct (bool_decide (SCHEDULE G = []) || bool_decide (FINAL_RATINGS G = ∅));
    [discriminate |].
  injection Hrun as <-.
  set (mid := fold_left countGame (completedGamesOf (SCHEDULE G)) (initRecords G)).
  assert (Hdom : dom mid = dom (initRecords G)) by apply dom_fold_countGame.
  assert (Hsides : forall t r,
            fold_left (projectGame G) (futureGamesOf (SCHEDULE G)) mid !! t = Some r ->
            projWins r + projLosses r = INR (sidesCountedFor G t)).
  { intros t r Ht.
    assert (Hin : is_Some (initRecords G !! t)).
    { apply elem_of_dom. rewrite <- Hdom.
      rewrite <- (dom_fold_projectGame G (futureGamesOf (SCHEDULE G)) mid).
      apply elem_of_dom. eauto. }
    destruct Hin as [r0 Hr0].
    assert (Hzero : projWins r0 = 0 /\ projLosses r0 = 0).
    { unfold initRecords in Hr0. rewrite lookup_fmap in Hr0.
      destruct (FINAL_RATINGS G !! t); simpl in Hr0; [| discriminate].
      injection Hr0 as <-. split; reflexivity. }
    destruct (fold_countGame_team (completedGamesOf (SCHEDULE G)) _ t r0 Hr0)
      as (r1 & Hr1 & Hw1 & Hl1).
    destruct (fold_projectGame_team G (futureGamesOf (SCHEDULE G)) _ t r1 Hr1)
      as (r2 & Hr2 & Hsum).
    fold mid in Hr2, Hsum. rewrite Ht in Hr2. injection Hr2 as <-.
    rewrite (filter_counted_dom mid (initRecords G)) in Hsum by exact Hdom.
    unfold sidesCountedFor, countedGames. destruct Hzero. lra. }
  split; [| split; [| split; [exact Hsides | split]]].
  - intros recs g t r Hc Ht.
    destruct (projectGame_team G recs g t r Ht) as (r' & Hr' & Hsum).
    rewrite Hc in Hsum. eauto.
  - intros recs g Hc. rewrite totalProjWins_projectGame, Hc. reflexivity.
  - intros t r Ht Hne. rewrite (Hsides t r Ht).
    unfold sidesCountedFor. now rewrite sides_are_games.
  - rewrite totalProjWins_fold_projectGame.
    rewrite (filter_counted_dom mid (initRecords G)) by exact Hdom.
    unfold mid. rewrite totalProjWins_fold_countGame, totalProjWins_initRecords.
    unfold countedGames. lra.
Qed.

Lemma projected_records_count_witness :
  let records :=
    fold_left (projectGame globalsAB) (futureGamesOf (SCHEDULE globalsAB))
      (fold_left countGame (completedGamesOf (SCHEDULE globalsAB))
         (initRecords globalsAB)) in
  (forall t r, records !! t = Some r ->
     projWins r + projLosses r = INR (sidesCountedFor globalsAB t)) /\
  (forall t r, records !! t = Some r ->
     (forall g, In g (countedGames globalsAB) ->
        ~ (homeOf g = t /\ awayOf g = t)) ->
     projWins r + projLosses r
     = INR (length (gamesOf t (countedGames globalsAB)))) /\
  totalProjWins records = INR (length (countedGames globalsAB)).
Proof.
  cbv zeta.
  refine (proj2 (proj2 (projected_records_count globalsAB _ _))).
  reflexivity.
Defined.

(** The row without a loser is skipped by src/elo.js. *)
Example gameNoLoser_skipped :
  finalRatings ratingsAB defaultConfig [gameNoLoser] = ratingsAB.
Proof. rewrite finalRatings_fold. reflexivity. Qed.


(** * Further properties of the code *)

(** ** The two probability helpers *)

Lemma winProbability_complement (homeElo awayElo HFA : R) :
  getWinProbability homeElo awayElo HFA + getWinProbability awayElo homeElo (- HFA) = 1.
Proof.
  unfold getWinProbability.
  replace (- (awayElo + - HFA - homeElo) / 400)
    with (- (- (homeElo + HFA - awayElo) / 400)) by lra.
  rewrite Rpower_Ropp.
  pose proof (pow10_pos (- (homeElo + HFA - awayElo) / 400)) as Hpos.
  field. split; lra.
Qed.

(** X1. Swapping the two ratings and negating the advantage gives the
    complementary probability; with no advantage, two equally rated teams are
    given one half each. *)
Theorem getWinProbability_symmetry (homeElo awayElo HFA : R) :
  getWinProbability homeElo awayElo HFA + getWinProbability awayElo homeElo (- HFA) = 1 /\
  getWinProbability homeElo homeElo 0 = 1 / 2.
Proof.
  split; [apply winProbability_complement |].
  pose proof (winProbability_complement homeElo homeElo 0) as Hsym.
  replace (- 0) with 0 in Hsym by lra. lra.
Qed.

(** X2. Over the real numbers the expected score of the update is the
    probability the forecast formula gives to the side that won, from the
    ratings before the game: the winner's own probability when it was at
    home, the complement of the home side's when it was away. *)
Theorem expected_score_is_forecast (K HFA lambda : R) (wc : Z)
    (winnerPrior loserPrior : R) (g : Game) :
  let row := traceRow K HFA lambda wc winnerPrior loserPrior g in
  E row = (if winnerIsAway g
           then 1 - getWinProbability loserPrior winnerPrior HFA
           else getWinProbability winnerPrior loserPrior HFA) /\
  0 < E row < 1.
Proof.
  cbv zeta. split; [| apply expectedProb_range].
  unfold traceRow. cbn [E]. destruct (winnerIsAway g).
  - pose proof (winProbability_complement loserPrior winnerPrior HFA) as Hsym.
    change (expectedProb winnerPrior loserPrior (- HFA))
      with (getWinProbability winnerPrior loserPrior (- HFA)). lra.
  - reflexivity.
Qed.

(** ** The recency weight and the effective K-factor *)





(** X4. Over the real numbers, with a base K that is not negative and a
    half-life that is not 0, the margin counts for at least one point, the
    effective K-factor lies in (K, K + mov], the rating change is positive
    and below the effective K-factor: the values computed for the winner go
    up and those for the loser go down, upset or not. *)
Theorem winner_always_gains (K HFA halfLife : R) (wc : Z) (wp lp : R) (g : Game) :
  0 <= K -> halfLife <> 0 ->
  let lambda := ln 2 / halfLife in
  let row := traceRow K HFA lambda wc wp lp g in
  1 <= mov row /\
  K < kPrime row <= K + mov row /\
  0 < delta row < kPrime row /\
  winnerPrior row < winnerAfter row /\
  loserAfter row < loserPrior row.
Proof.
  intros HK _. cbv zeta. set (lambda := ln 2 / halfLife).
  pose proof (wkWeight_range K HFA lambda wc wp lp g) as Hw.
  pose proof (expectedProb_range wp lp (if winnerIsAway g then - HFA else HFA)) as HE.
  pose proof (closeness_factor_range (wp - lp)) as Hf.
  unfold traceRow in *.
  cbn [mov kPrime delta winnerPrior winnerAfter loserPrior loserAfter wkWeight] in *.
  set (m := Rmax 1 (ToNumber (winnerScore g) - ToNumber (loserScore g))) in *.
  set (w := Rmin 1 (exp (- lambda * IZR (wc - week g)))) in *.
  set (e := expectedProb wp lp (if winnerIsAway g then - HFA else HFA)) in *.
  assert (Hm : 1 <= m) by apply Rmax_l.
  unfold computeKprime. cbv zeta.
  set (f := 2.2 / (Rabs (wp - lp) * 0.001 + 2.2)) in *.
  assert (Hmf : 0 < m * f <= m) by nra.
  assert (Hmfw : 0 < m * f * w <= m) by nra.
  assert (Hk : K < K + m * f * w <= K + m) by lra.
  assert (Hd : 0 < (K + m * f * w) * (1 - e) < K + m * f * w) by nra.
  repeat split; lra.
Qed.

Lemma winner_always_gains_witness :
  winnerPrior scenarioRow < winnerAfter scenarioRow /\
  loserAfter scenarioRow < loserPrior scenarioRow.
Proof.
  destruct (winner_always_gains 50 25 12 1 1500 1500 gameAB)
    as (_ & _ & _ & Hw & Hl); [lra | lra |].
  split; [exact Hw | exact Hl].
Defined.

(** ** The latest completed week *)

Lemma fold_max_ge (l : list Z) (a : Z) :
  (a <= fold_left Z.max l a)%Z /\
  (forall x, In x l -> (x <= fold_left Z.max l a)%Z).
Proof.
  revert a. induction l as [| y l IH]; intros a; simpl.
  - split; [lia | intros x []].
  - destruct (IH (Z.max a y)) as [Ha Hl]. split; [lia |].
    intros x [<- | Hx]; [lia | now apply Hl].
Qed.

Lemma fold_max_attained (l : list Z) (a : Z) :
  fold_left Z.max l a = a \/ In (fold_left Z.max l a) l.
Proof.
  revert a. induction l as [| y l IH]; intros a; simpl; [now left |].
  destruct (IH (Z.max a y)) as [Heq | Hin]; [| now right; right].
  rewrite Heq. destruct (Z.max_spec a y) as [[_ ->] | [_ ->]]; [right |]; now left.
Qed.

(** X5. [weeksCompleted] is the largest week among the rows with both scores,
    the rows the loop skips for a missing identifier included: no such row
    is later, and when there is one, one of them is of that week. *)
Theorem weeksCompleted_is_latest (schedule : list Game) :
  (forall g, In g schedule -> isCompletedGame g = true ->
     (week g <= weeksCompleted schedule)%Z) /\
  (forall g0, In g0 schedule -> isCompletedGame g0 = true ->
     exists g, In g schedule /\ isCompletedGame g = true /\
               week g = weeksCompleted schedule).
Proof.
  unfold weeksCompleted. split.
  - intros g Hin Hdone.
    assert (Hg : In g (completedGamesOf schedule)) by now apply In_completedGamesOf.
    destruct (completedGamesOf schedule) as [| h t]; [destruct Hg |]. simpl.
    destruct (fold_max_ge (List.map week t) (week h)) as [Hh Ht].
    destruct Hg as [<- | Hg]; [exact Hh |].
    apply Ht. now apply in_map.
  - intros g0 Hin Hdone.
    assert (Hg : In g0 (completedGamesOf schedule)) by now apply In_completedGamesOf.
    destruct (completedGamesOf schedule) as [| h t] eqn:Hc; [destruct Hg |]. simpl.
    destruct (fold_max_attained (List.map week t) (week h)) as [Heq | Hmem].
    + exists h. rewrite Heq.
      assert (Hh : In h (completedGamesOf schedule)) by (rewrite Hc; now left).
      apply In_completedGamesOf in Hh as [? ?]. auto.
    + apply in_map_iff in Hmem as (g & Hweek & Hgt).
      exists g.
      assert (Hh : In g (completedGamesOf schedule)) by (rewrite Hc; now right).
      apply In_completedGamesOf in Hh as [? ?]. auto.
Qed.

Lemma weeksCompleted_is_latest_witness :
  (week gameAB <= weeksCompleted [gameAB; gameAC; gameNoLoser])%Z /\
  exists g, In g [gameAB; gameAC; gameNoLoser] /\ isCompletedGame g = true /\
            week g = weeksCompleted [gameAB; gameAC; gameNoLoser].
Proof.
  destruct (weeksCompleted_is_latest [gameAB; gameAC; gameNoLoser]) as [Hle Hex].
  split.
  - apply Hle; [now left | reflexivity].
  - apply (Hex gameAB); [now left | reflexivity].
Defined.

(** ** The order in which the loop visits the games *)

Section StableSortFacts.
Context {A : Type} (le : A -> A -> bool).
Hypothesis le_total : forall x y, le x y = true \/ le y x = true.
Hypothesis le_trans : forall x y z, le x y = true -> le y z = true -> le x z = true.

Lemma insertSorted_perm (x : A) (l : list A) :
  Permutation (insertSorted le x l) (x :: l).
Proof.
  induction l as [| h t IH]; simpl; [reflexivity |].
  destruct (le x h); [reflexivity |].
  rewrite IH. apply perm_swap.
Qed.

Lemma stableSort_perm (l : list A) : Permutation (stableSort le l) l.
Proof.
  induction l as [| h t IH]; simpl; [reflexivity |].
  rewrite insertSorted_perm. now constructor.
Qed.

Lemma insertSorted_sorted (x : A) (l : list A) :
  StronglySorted (fun a b => le a b = true) l ->
  StronglySorted (fun a b => le a b = true) (insertSorted le x l).
Proof.
  induction l as [| h t IH]; intros Hs; simpl.
  - repeat constructor.
  - apply StronglySorted_inv in Hs as [Ht Hh].
    destruct (le x h) eqn:Hxh.
    + constructor; [now constructor |].
      constructor; [assumption |].
      eapply Forall_impl; [exact Hh |]. intros a Ha. now apply (le_trans x h a).
    + constructor; [now apply IH |].
      assert (Hhx : le h x = true)
        by (destruct (le_total h x) as [? | Hc]; [assumption | congruence]).
      apply List.Forall_forall. intros a Ha.
      apply In_insertSorted in Ha as [-> | Ha]; [assumption |].
      rewrite List.Forall_forall in Hh. now apply Hh.
Qed.

Lemma stableSort_sorted (l : list A) :
  StronglySorted (fun a b => le a b = true) (stableSort le l).
Proof.
  induction l as [| h t IH]; simpl; [constructor | now apply insertSorted_sorted].
Qed.

(** Elements of one class keep their relative order when any two of them
    tie under the comparator. *)
Lemma insertSorted_class (c : A -> bool) (x : A) (l : list A) :
  (forall a b, c a = true -> c b = true -> le a b = true) ->
  List.filter c (insertSorted le x l) = List.filter c (x :: l).
Proof.
  intros Hc. induction l as [| h t IH]; [reflexivity |].
  cbn [insertSorted]. destruct (le x h) eqn:Hxh; [reflexivity |].
  cbn [List.filter] in *. rewrite IH.
  destruct (c x) eqn:Hx; [| reflexivity].
  destruct (c h) eqn:Hh; [| reflexivity].
  rewrite (Hc x h Hx Hh) in Hxh. discriminate.
Qed.

Lemma stableSort_class (c : A -> bool) (l : list A) :
  (forall a b, c a = true -> c b = true -> le a b = true) ->
  List.filter c (stableSort le l) = List.filter c l.
Proof.
  intros Hc. induction l as [| h t IH]; [reflexivity |].
  cbn [stableSort foldr]. fold (stableSort le t).
  rewrite insertSorted_class by assumption. cbn [List.filter]. now rewrite IH.
Qed.
End StableSortFacts.

Lemma StronglySorted_weaken {A} (R1 R2 : A -> A -> Prop) (l : list A) :
  (forall a b, R1 a b -> R2 a b) -> StronglySorted R1 l -> StronglySorted R2 l.
Proof.
  intros Himp Hs. induction Hs as [| a l Hs IH Hall]; constructor;
    [assumption |].
  eapply List.Forall_impl; [| exact Hall]. intros b. apply Himp.
Qed.

(** X6. The loop visits every completed game once, in non-decreasing week order,
    and the games of one week in the order of the schedule. *)
Theorem games_visited_in_week_order (schedule : list Game) :
  let games := sortByWeek (completedGamesOf schedule) in
  Permutation games (completedGamesOf schedule) /\
  StronglySorted (fun a b => (week a <= week b)%Z) games /\
  (forall w, List.filter (fun g => (week g =? w)%Z) games
             = List.filter (fun g => (week g =? w)%Z) (completedGamesOf schedule)).
Proof.
  cbv zeta. unfold sortByWeek. split; [apply stableSort_perm |]. split.
  - eapply StronglySorted_weaken; [| apply stableSort_sorted].
    + intros a b Hab. now apply Z.leb_le.
    + intros x y. destruct (Z.le_ge_cases (week x) (week y));
        [left | right]; now apply Z.leb_le.
    + intros x y z Hxy Hyz. apply Z.leb_le. apply Z.leb_le in Hxy, Hyz. lia.
  - intros w. apply stableSort_class.
    intros a b Ha Hb. apply Z.eqb_eq in Ha, Hb. apply Z.leb_le. lia.
Qed.

(** ** Rows without both scores *)

Lemma completedGamesOf_skip (s1 s2 : list Game) (g : Game) :
  isCompletedGame g = false ->
  completedGamesOf (s1 ++ g :: s2) = completedGamesOf (s1 ++ s2).
Proof.
  intros Hg. unfold completedGamesOf.
  rewrite !List.filter_app. cbn [List.filter]. now rewrite Hg.
Qed.

(** X7. A row that lacks a score can be put anywhere in the schedule, or taken
    out, without changing the final ratings or [weeksCompleted]. *)
Theorem unplayed_rows_do_not_matter (startingElo : gmap string R)
    (config : Config) (s1 s2 : list Game) (g : Game) :
  isCompletedGame g = false ->
  finalRatings startingElo config (s1 ++ g :: s2)
    = finalRatings startingElo config (s1 ++ s2) /\
  weeksCompleted (s1 ++ g :: s2) = weeksCompleted (s1 ++ s2).
Proof.
  intros Hg. unfold finalRatings, weeksCompleted.
  now rewrite (completedGamesOf_skip s1 s2 g Hg).
Qed.

Lemma unplayed_rows_do_not_matter_witness :
  finalRatings ratingsAB defaultConfig ([gameAB] ++ gameAC :: [gameHalf])
    = finalRatings ratingsAB defaultConfig ([gameAB] ++ [gameHalf]).
Proof.
  apply (unplayed_rows_do_not_matter ratingsAB defaultConfig [gameAB] [gameHalf] gameAC).
  reflexivity.
Defined.

(** ** What the fold conserves *)

Lemma totalRating_insert_new (k : string) (v : R) (m : gmap string R) :
  m !! k = None -> totalRating (<[k := v]> m) = v + totalRating m.
Proof.
  intros Hk. unfold totalRating.
  rewrite map_fold_insert_L; [reflexivity | | assumption].
  intros; lra.
Qed.

Lemma totalRating_insert_old (k : string) (v old : R) (m : gmap string R) :
  m !! k = Some old -> totalRating (<[k := v]> m) = totalRating m - old + v.
Proof.
  intros Hk.
  rewrite <- (insert_delete_id m k old Hk) at 2.
  rewrite <- (insert_delete_eq m k v).
  rewrite !totalRating_insert_new by apply lookup_delete_eq. lra.
Qed.

Section Conservation.
Variables (K HFA lambda meanElo : R) (wc : Z).

(** The quantity the loop keeps: the total rating, less [meanElo] for every
    team in the map. *)
Abbreviation excess := (fun m : gmap string R => totalRating m - meanElo * INR (size m)).

Lemma seed_excess (t : string) (m : gmap string R) :
  excess (seed meanElo t m) = excess m.
Proof.
  unfold seed. destruct (m !! t) eqn:Ht; [reflexivity |].
  rewrite totalRating_insert_new, map_size_insert_None, S_INR by assumption. lra.
Qed.

Lemma processGame_excess (m : gmap string R) (g : Game) :
  (falsy (winner g) || falsy (loser g) = false -> winner g <> loser g) ->
  excess (processGame K HFA lambda meanElo wc m g) = excess m.
Proof.
  intros Hne. unfold processGame.
  destruct (falsy (winner g) || falsy (loser g)) eqn:Hskip; [reflexivity |].
  specialize (Hne eq_refl). cbv zeta.
  set (m2 := seed meanElo (loser g) (seed meanElo (winner g) m)).
  assert (Hm2 : excess m2 = excess m) by (unfold m2; now rewrite !seed_excess).
  destruct (seed_lookup_same meanElo (loser g) (seed meanElo (winner g) m))
    as [lp Hlp].
  destruct (seed_lookup_same meanElo (winner g) m) as [wp Hwp].
  apply (seed_keeps meanElo (loser g)) in Hwp. fold m2 in Hlp, Hwp.
  rewrite (lookup_total_correct m2 _ _ Hwp), (lookup_total_correct m2 _ _ Hlp).
  set (row := traceRow K HFA lambda wc wp lp g).
  rewrite (totalRating_insert_old (loser g) _ lp),
    (totalRating_insert_old (winner g) _ wp)
    by (try rewrite lookup_insert_ne by assumption; assumption).
  rewrite !map_size_insert_Some
    by (try rewrite lookup_insert_ne by assumption; eauto).
  rewrite <- Hm2. unfold row. simpl. lra.
Qed.

Lemma fold_excess (games : list Game) (m : gmap string R) :
  (forall g, In g games ->
     falsy (winner g) || falsy (loser g) = false -> winner g <> loser g) ->
  excess (fold_left (processGame K HFA lambda meanElo wc) games m) = excess m.
Proof.
  revert m. induction games as [| g gs IH]; intros m Hne; simpl; [reflexivity |].
  rewrite IH by (intros g' Hin; apply Hne; now right).
  apply processGame_excess, Hne. now left.
Qed.
End Conservation.

(** X8. Over the real numbers, with a half-life that is not 0: when no
    processed game lists one team on both sides, the total rating changes
    only by seeding: the total of the final ratings exceeds the total of the
    starting ratings by [mean_elo] times the number of teams added.  In
    particular it is unchanged when every team was rated at the start. *)
Theorem total_rating_conserved (startingElo : gmap string R) (config : Config)
    (schedule : list Game) :
  orDefault (half_life_weeks config) 12 <> 0 ->
  (forall g, In g schedule -> isCompletedGame g = true ->
     falsy (winner g) || falsy (loser g) = false -> winner g <> loser g) ->
  let final := finalRatings startingElo config schedule in
  let meanElo := orDefault (mean_elo config) 1500 in
  totalRating final - totalRating startingElo
    = meanElo * (INR (size final) - INR (size startingElo)) /\
  (dom final = dom startingElo -> totalRating final = totalRating startingElo).
Proof.
  intros _ Hne. cbv zeta.
  assert (Hex : totalRating (finalRatings startingElo config schedule)
                - orDefault (mean_elo config) 1500
                  * INR (size (finalRatings startingElo config schedule))
                = totalRating startingElo
                  - orDefault (mean_elo config) 1500 * INR (size startingElo)).
  { rewrite finalRatings_fold. apply fold_excess.
    intros g Hin. apply In_sorted_completed in Hin as [Hin Hdone]. now apply Hne. }
  split; [lra |].
  intros Hdom.
  assert (Hsize : size (finalRatings startingElo config schedule) = size startingElo)
    by (rewrite <- !size_dom, Hdom; reflexivity).
  rewrite Hsize in Hex. lra.
Qed.

Lemma total_rating_conserved_witness :
  totalRating (finalRatings ratingsAB defaultConfig [gameAB; gameAC])
  - totalRating ratingsAB
  = 1500 * (INR (size (finalRatings ratingsAB defaultConfig [gameAB; gameAC]))
            - INR (size ratingsAB)).
Proof.
  refine (proj1 (total_rating_conserved ratingsAB defaultConfig [gameAB; gameAC] _ _)).
  - simpl. lra.
  - intros g [<- | [<- | []]] Hdone _; [discriminate | discriminate].
Defined.

(** ** Which side is favoured *)

Lemma pow10_lt_1 (x : R) : x < 0 -> Rpower 10 x < 1.
Proof. intros Hx. rewrite <- (Rpower_O 10) by lra. now apply pow10_lt. Qed.

Lemma pow10_ge_1 (x : R) : 0 <= x -> 1 <= Rpower 10 x.
Proof.
  intros [Hx | <-]; [| rewrite Rpower_O; lra].
  rewrite <- (Rpower_O 10) by lra. left. now apply pow10_lt.
Qed.

Lemma getWinProbability_half (homeElo awayElo HFA : R) :
  (0.5 < getWinProbability homeElo awayElo HFA <-> awayElo < homeElo + HFA) /\
  (homeElo + HFA = awayElo -> getWinProbability homeElo awayElo HFA = 1 / 2).
Proof.
  unfold getWinProbability.
  set (x := - (homeElo + HFA - awayElo) / 400).
  pose proof (pow10_pos x) as Hpos.
  assert (Hiff : 1 / (1 + Rpower 10 x) > 1 / 2 <-> Rpower 10 x < 1).
  { split; intros H.
    - apply (Rmult_lt_compat_r (1 + Rpower 10 x)) in H; [| lra].
      unfold Rdiv in H at 2. rewrite Rmult_1_l, Rinv_l in H by lra. lra.
    - apply (Rmult_lt_reg_r (1 + Rpower 10 x)); [lra |].
      unfold Rdiv at 2. rewrite Rmult_1_l, Rinv_l by lra. lra. }
  split; [split |].
  - intros Hp. destruct (Rlt_le_dec x 0) as [Hx | Hx]; [unfold x in Hx; lra |].
    pose proof (pow10_ge_1 x Hx). assert (Rpower 10 x < 1) by (apply Hiff; lra). lra.
  - intros Hd. assert (Rpower 10 x < 1) by (apply pow10_lt_1; unfold x; lra).
    apply Hiff in H. lra.
  - intros Heq. replace x with 0 by (unfold x; lra). rewrite Rpower_O by lra. lra.
Qed.

(** X9. Over the real numbers the projected winner is the home team exactly
    when its rating plus the home-field advantage exceeds the away rating;
    otherwise, ties included, it is the away team.  Between two different identifiers the reported
    probability is the one of the projected winner, and an exact tie is
    reported as one half with a margin of 0. *)
Theorem favoured_side (G : Globals) (g : Game) :
  let p := predictGame G g in
  let gap := ratingOrMean G (homeOf g) + homeFieldAdvantage G
             - ratingOrMean G (awayOf g) in
  homeTeam p = homeOf g /\ awayTeam p = awayOf g /\
  (0 < gap -> projectedWinner p = homeOf g /\ winProb p = homeWinProbability G g) /\
  (gap <= 0 -> projectedWinner p = awayOf g) /\
  (gap <= 0 -> homeOf g <> awayOf g -> winProb p = 1 - homeWinProbability G g) /\
  (gap = 0 -> winProb p = 1 / 2 /\ margin p = 0).
Proof.
  cbv zeta.
  destruct (getWinProbability_half (ratingOrMean G (homeOf g))
              (ratingOrMean G (awayOf g)) (homeFieldAdvantage G)) as [Hiff Htie].
  change (getWinProbability _ _ _) with (homeWinProbability G g) in Hiff, Htie.
  split; [reflexivity |]. split; [reflexivity |].
  split; [| split; [| split]].
  - intros Hgap. assert (Hp : 0.5 < homeWinProbability G g) by (apply Hiff; lra).
    split; [| now apply predictGame_home_favoured].
    unfold predictGame. cbv zeta. cbn [projectedWinner].
    change (getWinProbability _ _ _) with (homeWinProbability G g).
    destruct (decide (0.5 < homeWinProbability G g)); [reflexivity | contradiction].
  - intros Hgap.
    assert (Hp : ~ 0.5 < homeWinProbability G g) by (intros Hp; apply Hiff in Hp; lra).
    unfold predictGame. cbv zeta. cbn [projectedWinner].
    change (getWinProbability _ _ _) with (homeWinProbability G g).
    destruct (decide (0.5 < homeWinProbability G g)); [contradiction | reflexivity].
  - intros Hgap Hne.
    assert (Hp : ~ 0.5 < homeWinProbability G g) by (intros Hp; apply Hiff in Hp; lra).
    now apply predictGame_away_favoured.
  - intros Hgap.
    assert (Hhalf : homeWinProbability G g = 1 / 2) by (apply Htie; lra).
    assert (Hp : ~ 0.5 < homeWinProbability G g) by lra.
    assert (Hw : winProb (predictGame G g) = 1 / 2).
    { destruct (decide (homeOf g = awayOf g)) as [Heq | Hne].
      - rewrite predictGame_same_team by assumption. exact Hhalf.
      - rewrite predictGame_away_favoured by assumption. lra. }
    split; [exact Hw |].
    rewrite predictGame_margin, Hw.
    rewrite (Rmax_right 1e-12) by lra. rewrite (Rmin_right (1 - 1e-12)) by lra.
    replace (1 / 2 / (1 - 1 / 2)) with 1 by lra. rewrite ln_1. lra.
Qed.

Lemma favoured_side_witness :
  projectedWinner (predictGame (mkGlobals ratingsAB [gameAC] defaultConfig) gameAC)
  = "A".
Proof.
  refine (proj1 (proj1 (proj2 (proj2
    (favoured_side (mkGlobals ratingsAB [gameAC] defaultConfig) gameAC))) _)).
  unfold homeFieldAdvantage.
  change (ratingOrMean _ (homeOf gameAC)) with 1500.
  change (ratingOrMean _ (awayOf gameAC)) with 1500.
  simpl. lra.
Defined.

(** ** The margin in closed form *)





(** ** The margin is bounded *)






(** ** What the two prediction lists contain *)

Lemma sortByWinProb_facts (l : list Prediction) :
  Permutation (sortByWinProb l) l /\
  StronglySorted (fun a b => winProb b <= winProb a) (sortByWinProb l) /\
  (forall v, List.filter (fun p => bool_decide (winProb p = v)) (sortByWinProb l)
             = List.filter (fun p => bool_decide (winProb p = v)) l).
Proof.
  unfold sortByWinProb. split; [apply stableSort_perm |]. split.
  - eapply StronglySorted_weaken; [| apply stableSort_sorted].
    + intros a b Hab. now apply bool_decide_eq_true_1 in Hab.
    + intros x y. destruct (Rle_or_lt (winProb y) (winProb x));
        [left | right]; apply bool_decide_eq_true_2; lra.
    + intros x y z Hxy Hyz. apply bool_decide_eq_true_1 in Hxy, Hyz.
      apply bool_decide_eq_true_2. lra.
  - intros v. apply stableSort_class.
    intros a b Ha Hb. apply bool_decide_eq_true_1 in Ha, Hb.
    apply bool_decide_eq_true_2. lra.
Qed.

Lemma filter_nil_iff {A} (f : A -> bool) (l : list A) :
  List.filter f l = [] <-> forall x, In x l -> f x = false.
Proof.
  induction l as [| h t IH]; simpl; [intuition |].
  destruct (f h) eqn:Hh; split.
  - discriminate.
  - intros Hall. rewrite (Hall h) in Hh by now left. discriminate.
  - intros Ht x [<- | Hx]; [assumption | now apply IH].
  - intros Hall. apply IH. intros x Hx. apply Hall. now right.
Qed.

Lemma predictWeek_nil_iff (G : Globals) (wk : Z) :
  predictWeek G wk = [] <->
  forall g, In g (SCHEDULE G) -> isFutureGame g = true -> week g <> wk.
Proof.
  unfold predictWeek.
  set (sel := fun g => (week g =? wk)%Z && isFutureGame g).
  assert (Hlen : length (sortByWinProb (List.map (predictGame G)
                                          (List.filter sel (SCHEDULE G))))
                 = length (List.filter sel (SCHEDULE G))).
  { rewrite (Permutation_length (proj1 (sortByWinProb_facts _))). apply length_map. }
  split.
  - intros Hnil. rewrite Hnil in Hlen. symmetry in Hlen.
    apply length_zero_iff_nil in Hlen.
    intros g Hin Hfut Hweek.
    pose proof (proj1 (filter_nil_iff sel _) Hlen g Hin) as Hsel.
    unfold sel in Hsel. rewrite Hfut, Hweek, Z.eqb_refl in Hsel. discriminate.
  - intros Hnone.
    assert (Hfil : List.filter sel (SCHEDULE G) = []).
    { apply filter_nil_iff. intros g Hin. unfold sel.
      destruct (isFutureGame g) eqn:Hfut; [| apply andb_false_r].
      apply andb_false_iff. left. apply Z.eqb_neq. now apply Hnone. }
    rewrite Hfil. reflexivity.
Qed.

(** X12. [predictWeek] lists each future game of the selected week exactly once,
    the most likely winners first and equally likely ones in schedule order;
    it prints nothing exactly when the schedule has no future game in that
    week. *)
Theorem predictWeek_lists_week (G : Globals) (wk : Z) :
  let futureGames :=
    List.filter (fun g => (week g =? wk)%Z && isFutureGame g) (SCHEDULE G) in
  Permutation (predictWeek G wk) (List.map (predictGame G) futureGames) /\
  StronglySorted (fun a b => winProb b <= winProb a) (predictWeek G wk) /\
  (forall v, List.filter (fun p => bool_decide (winProb p = v)) (predictWeek G wk)
             = List.filter (fun p => bool_decide (winProb p = v))
                 (List.map (predictGame G) futureGames)) /\
  length (predictWeek G wk) = length futureGames /\
  (predictWeek G wk = [] <->
   forall g, In g (SCHEDULE G) -> isFutureGame g = true -> week g <> wk).
Proof.
  cbv zeta. unfold predictWeek.
  set (sel := fun g => (week g =? wk)%Z && isFutureGame g).
  destruct (sortByWinProb_facts (List.map (predictGame G) (List.filter sel (SCHEDULE G))))
    as (Hperm & Hsorted & Hstable).
  split; [exact Hperm |]. split; [exact Hsorted |]. split; [exact Hstable |].
  assert (Hlen : length (sortByWinProb (List.map (predictGame G)
                                          (List.filter sel (SCHEDULE G))))
                 = length (List.filter sel (SCHEDULE G)))
    by (rewrite (Permutation_length Hperm); apply length_map).
  split; [exact Hlen |].
  apply predictWeek_nil_iff.
Qed.

(** X13. [predictTeam] prints nothing for an empty selection; otherwise it lists
    each future game that names the team as winner or loser exactly once,
    most likely winners first, and the team is the home or the away side of
    every prediction listed. *)
Theorem predictTeam_lists_team (G : Globals) (team : string) :
  let futureGames :=
    List.filter
      (fun g => isFutureGame g &&
                (bool_decide (winner g = team) || bool_decide (loser g = team)))
      (SCHEDULE G) in
  (falsy team = true -> predictTeam G team = []) /\
  (falsy team = false ->
     Permutation (predictTeam G team) (List.map (predictGame G) futureGames) /\
     StronglySorted (fun a b => winProb b <= winProb a) (predictTeam G team) /\
     (forall p, In p (predictTeam G team) ->
        homeTeam p = team \/ awayTeam p = team)).
Proof.
  cbv zeta. unfold predictTeam. split; [intros ->; reflexivity |].
  intros ->.
  set (l := List.filter _ (SCHEDULE G)).
  destruct (sortByWinProb_facts (List.map (predictGame G) l))
    as (Hperm & Hsorted & _).
  split; [exact Hperm |]. split; [exact Hsorted |].
  intros p Hin. apply (Permutation_in _ Hperm) in Hin.
  apply in_map_iff in Hin as (g & <- & Hg).
  apply filter_In in Hg as [_ Hsel].
  apply andb_true_iff in Hsel as [_ Hside].
  cbn [homeTeam awayTeam predictGame]. unfold homeOf, awayOf.
  apply orb_true_iff in Hside as [Hw | Hl];
    [apply bool_decide_eq_true_1 in Hw | apply bool_decide_eq_true_1 in Hl];
    destruct (winnerIsAway g); auto.
Qed.

Lemma predictTeam_lists_team_witness :
  Permutation
    (predictTeam (mkGlobals ratingsAB [gameAB; gameAC] defaultConfig) "C")
    [predictGame (mkGlobals ratingsAB [gameAB; gameAC] defaultConfig) gameAC].
Proof.
  refine (proj1 (proj2
    (predictTeam_lists_team (mkGlobals ratingsAB [gameAB; gameAC] defaultConfig) "C")
    _)).
  reflexivity.
Defined.

(** ** The records table: actual wins and losses *)

Lemma countGame_fields (records : gmap string TeamRecord) (g : Game)
    (t : string) (r : TeamRecord) :
  records !! t = Some r ->
  exists r', countGame records g !! t = Some r' /\
    wins r' = (wins r + (if bool_decide (winner g = t) then 1 else 0))%nat /\
    losses r' = (losses r + (if bool_decide (loser g = t) then 1 else 0))%nat /\
    elo r' = elo r.
Proof.
  intros Ht. unfold countGame.
  destruct (decide (winner g = t)) as [Hw | Hw];
    destruct (decide (loser g = t)) as [Hl | Hl];
    rewrite ?(bool_decide_eq_true_2 _ Hw), ?(bool_decide_eq_false_2 _ Hw),
      ?(bool_decide_eq_true_2 _ Hl), ?(bool_decide_eq_false_2 _ Hl);
    rewrite ?Hw, ?Hl;
    repeat (rewrite lookup_alter_eq || rewrite lookup_alter_ne by assumption);
    rewrite Ht; simpl; eexists; (split; [reflexivity |]); simpl;
    repeat split; lia.
Qed.

Lemma fold_countGame_fields (games : list Game) (records : gmap string TeamRecord)
    (t : string) (r : TeamRecord) :
  records !! t = Some r ->
  exists r', fold_left countGame games records !! t = Some r' /\
    wins r' = (wins r
               + length (List.filter (fun g => bool_decide (winner g = t)) games))%nat /\
    losses r' = (losses r
                 + length (List.filter (fun g => bool_decide (loser g = t)) games))%nat /\
    elo r' = elo r.
Proof.
  revert records r. induction games as [| g gs IH]; intros records r Ht.
  - exists r. simpl. repeat split; [assumption | lia | lia].
  - cbn [fold_left List.filter].
    destruct (countGame_fields records g t r Ht) as (r1 & H1 & Hw1 & Hl1 & He1).
    destruct (IH _ _ H1) as (r2 & H2 & Hw2 & Hl2 & He2).
    exists r2. split; [assumption |].
    rewrite Hw2, Hl2, He2, Hw1, Hl1, He1.
    destruct (bool_decide (winner g = t)), (bool_decide (loser g = t));
      cbn [length]; repeat split; lia.
Qed.

Lemma projectGame_fields (G : Globals) (records : gmap string TeamRecord) (g : Game)
    (t : string) (r : TeamRecord) :
  records !! t = Some r ->
  exists r', projectGame G records g !! t = Some r' /\
    wins r' = wins r /\ losses r' = losses r /\ elo r' = elo r.
Proof.
  intros Ht. unfold projectGame.
  destruct (counted records g); simpl negb; cbv iota; [| eauto].
  cbv zeta.
  destruct (decide (homeOf g = t)) as [Hh | Hh];
    destruct (decide (awayOf g = t)) as [Ha | Ha];
    rewrite ?Hh, ?Ha;
    repeat (rewrite lookup_alter_eq || rewrite lookup_alter_ne by assumption);
    rewrite Ht; simpl; eexists; (split; [reflexivity |]); simpl; auto.
Qed.

Lemma fold_projectGame_fields (G : Globals) (games : list Game)
    (records : gmap string TeamRecord) (t : string) (r : TeamRecord) :
  records !! t = Some r ->
  exists r', fold_left (projectGame G) games records !! t = Some r' /\
    wins r' = wins r /\ losses r' = losses r /\ elo r' = elo r.
Proof.
  revert records r. induction games as [| g gs IH]; intros records r Ht; simpl.
  - eauto.
  - destruct (projectGame_fields G records g t r Ht) as (r1 & H1 & Hw1 & Hl1 & He1).
    destruct (IH _ _ H1) as (r2 & H2 & Hw2 & Hl2 & He2).
    exists r2. split; [assumption |]. repeat split; congruence.
Qed.

(** X14. The finished table has one row per rated team, carrying its rating; the
    row's wins and losses are the numbers of completed rows of the schedule
    that name the team as winner and as loser. *)
Theorem records_table_counts (G : Globals) (records : gmap string TeamRecord) :
  generateRecordsTable G = Some records ->
  dom records = dom (FINAL_RATINGS G) /\
  (forall t r, records !! t = Some r ->
     FINAL_RATINGS G !! t = Some (elo r) /\
     wins r = length (gamesWonBy t (SCHEDULE G)) /\
     losses r = length (gamesLostBy t (SCHEDULE G))).
Proof.
  intros Hrun. unfold generateRecordsTable in Hrun.
  destruct (bool_decide (SCHEDULE G = []) || bool_decide (FINAL_RATINGS G = ∅));
    [discriminate |].
  injection Hrun as <-.
  set (mid := fold_left countGame (completedGamesOf (SCHEDULE G)) (initRecords G)).
  assert (Hmid : dom mid = dom (initRecords G)) by apply dom_fold_countGame.
  assert (Hinit : dom (initRecords G) = dom (FINAL_RATINGS G))
    by (unfold initRecords; apply dom_fmap_L).
  assert (Hdom : dom (fold_left (projectGame G) (futureGamesOf (SCHEDULE G)) mid)
                 = dom (FINAL_RATINGS G))
    by (rewrite dom_fold_projectGame; congruence).
  split; [exact Hdom |].
  intros t r Ht.
  assert (Hin : is_Some (initRecords G !! t)).
  { apply elem_of_dom. rewrite Hinit, <- Hdom. apply elem_of_dom. eauto. }
  destruct Hin as [r0 Hr0].
  assert (Hzero : FINAL_RATINGS G !! t = Some (elo r0) /\ wins r0 = 0%nat /\
                  losses r0 = 0%nat /\ projWins r0 = 0 /\ projLosses r0 = 0).
  { unfold initRecords in Hr0. rewrite lookup_fmap in Hr0.
    destruct (FINAL_RATINGS G !! t); simpl in Hr0; [| discriminate].
    injection Hr0 as <-. repeat split. }
  destruct Hzero as (Hrate & Hw0 & Hl0 & Hpw0 & Hpl0).
  destruct (fold_countGame_fields (completedGamesOf (SCHEDULE G)) _ t r0 Hr0)
    as (r1 & Hr1 & Hw1 & Hl1 & He1).
  destruct (fold_projectGame_fields G (futureGamesOf (SCHEDULE G)) _ t r1 Hr1)
    as (r2 & Hr2 & Hw2 & Hl2 & He2).
  fold mid in Hr2. rewrite Ht in Hr2. injection Hr2 as <-.
  split; [congruence |].
  split; [unfold gamesWonBy; lia | unfold gamesLostBy; lia].
Qed.

Lemma records_table_counts_witness :
  let records :=
    fold_left (projectGame globalsAB) (futureGamesOf (SCHEDULE globalsAB))
      (fold_left countGame (completedGamesOf (SCHEDULE globalsAB))
         (initRecords globalsAB)) in
  dom records = dom (FINAL_RATINGS globalsAB).
Proof.
  cbv zeta. refine (proj1 (records_table_counts globalsAB _ _)). reflexivity.
Defined.

(** ** The rated teams, and the future games the table counts *)

Lemma rated_iff (startingElo : gmap string R) (config : Config)
    (schedule : list Game) (t : string) :
  is_Some (finalRatings startingElo config schedule !! t) <->
  is_Some (startingElo !! t) \/ exists g, In g schedule /\ playedIn t g.
Proof.
  rewrite finalRatings_fold. split.
  - intros Hsome. apply Classical_Prop.NNPP. intros Hnot.
    assert (Hnone : startingElo !! t = None).
    { destruct (startingElo !! t) eqn:Ht; [| reflexivity].
      exfalso. apply Hnot. left. eauto. }
    rewrite fold_frame in Hsome.
    + rewrite Hnone in Hsome. now apply is_Some_None in Hsome.
    + intros g Hin Hskip. apply In_sorted_completed in Hin as [Hin Hdone].
      split; intros Heq; apply Hnot; right; exists g; unfold playedIn; auto.
  - intros [Hinit | (g & Hin & Hdone & Hskip & Hside)].
    + now apply fold_keeps_keys.
    + destruct Hside as [<- | <-];
        (apply fold_adds_sides; [now apply In_sorted_completed | assumption]).
Qed.

(** X15. After [runEloCalculation] a team has a rating exactly when it is a key of
    the starting ratings or a side of a completed row with two identifiers;
    the records table then has a row for exactly these teams, and a future
    game enters the projections exactly when both its sides are among them:
    a future game against a team that has not played yet is left out of both
    teams' projections. *)
Theorem rated_teams_and_counted_games (startingElo : gmap string R)
    (config : Config) (schedule : list Game) :
  let G := runEloCalculation startingElo config schedule in
  let rated := fun t =>
    is_Some (startingElo !! t) \/ exists g, In g schedule /\ playedIn t g in
  (forall t, is_Some (FINAL_RATINGS G !! t) <-> rated t) /\
  (forall records t, generateRecordsTable G = Some records ->
     (is_Some (records !! t) <-> rated t)) /\
  (forall g, In g (countedGames G) <->
     In g schedule /\ isFutureGame g = true /\
     rated (homeOf g) /\ rated (awayOf g)).
Proof.
  cbv zeta. set (G := runEloCalculation startingElo config schedule).
  assert (Hrated : forall t, is_Some (FINAL_RATINGS G !! t) <->
            is_Some (startingElo !! t) \/ exists g, In g schedule /\ playedIn t g)
    by (intros t; apply rated_iff).
  assert (Hinit : forall t, is_Some (initRecords G !! t)
                            <-> is_Some (FINAL_RATINGS G !! t)).
  { intros t. unfold initRecords. rewrite lookup_fmap.
    destruct (FINAL_RATINGS G !! t); simpl; split; intros [x Hx];
      try discriminate; eauto. }
  split; [exact Hrated |]. split.
  - intros records t Hrun. rewrite <- Hrated, <- !elem_of_dom.
    unfold generateRecordsTable in Hrun.
    destruct (bool_decide (SCHEDULE G = []) || bool_decide (FINAL_RATINGS G = ∅));
      [discriminate |].
    injection Hrun as <-.
    rewrite dom_fold_projectGame, dom_fold_countGame.
    unfold initRecords. now rewrite dom_fmap_L.
  - intros g. unfold countedGames. rewrite filter_In, In_futureGamesOf.
    unfold counted. rewrite andb_true_iff, !bool_decide_eq_true, !Hinit, !Hrated.
    change (SCHEDULE G) with schedule. tauto.
Qed.

(** ** The team dropdown *)

Lemma addTeams_spec (teamsSet : gset string) (g : Game) (t : string) :
  t ∈ addTeams teamsSet g <->
  t ∈ teamsSet \/ (falsy t = false /\ (winner g = t \/ loser g = t)).
Proof.
  unfold addTeams.
  destruct (falsy (winner g)) eqn:Hw, (falsy (loser g)) eqn:Hl;
    rewrite ?elem_of_union, ?elem_of_singleton; split;
    try (intros [H | [Hf [<- | <-]]]; auto; congruence);
    intros H; repeat destruct H as [H | H]; subst; auto.
Qed.

(** X16. The team dropdown offers exactly the keys of the ratings and the
    non-empty identifiers that some row of the schedule names, completed or
    not; so a team with only future games can be selected although it has no
    rating, and is then forecast at [mean_elo]. *)
Theorem team_options (schedule : list Game) (ratings : gmap string R) (t : string) :
  (t ∈ teamOptions schedule ratings <->
   is_Some (ratings !! t) \/
   (falsy t = false /\ exists g, In g schedule /\ (winner g = t \/ loser g = t))) /\
  (forall config, t ∈ teamOptions schedule ratings -> ratings !! t = None ->
     ratingOrMean (mkGlobals ratings schedule config) t = orDefault (mean_elo config) 1500).
Proof.
  split.
  - unfold teamOptions. rewrite <- elem_of_dom.
    generalize (dom ratings). induction schedule as [| g gs IH]; intros s; simpl.
    + split; [auto | intros [H | (_ & g & [] & _)]; exact H].
    + rewrite IH, addTeams_spec. split.
      * intros [[H | (Hf & Hside)] | (Hf & g' & Hin & Hside)]; eauto 8.
      * intros [H | (Hf & g' & [<- | Hin] & Hside)]; eauto 8.
  - intros config _ Hnone. unfold ratingOrMean. simpl. now rewrite Hnone.
Qed.

(** ** The week dropdown *)

Lemma In_distinct (x : Z) (l : list Z) : In x (distinct l) <-> In x l.
Proof.
  induction l as [| y t IH]; simpl; [reflexivity |].
  rewrite filter_In, IH. split.
  - intros [-> | [Hx _]]; auto.
  - intros [-> | Hx]; [now left |].
    destruct (Z.eq_dec x y) as [-> | Hne]; [now left | right].
    split; [assumption |]. apply negb_true_iff. now apply Z.eqb_neq.
Qed.

Lemma NoDup_distinct (l : list Z) : List.NoDup (distinct l).
Proof.
  induction l as [| y t IH]; simpl; constructor.
  - rewrite filter_In. intros [_ Hne].
    apply negb_true_iff in Hne. now rewrite Z.eqb_refl in Hne.
  - now apply List.NoDup_filter.
Qed.

Lemma StronglySorted_strict (l : list Z) :
  List.NoDup l -> StronglySorted Z.le l -> StronglySorted Z.lt l.
Proof.
  intros Hnd Hs. induction Hs as [| a l Hs IH Hall]; constructor.
  - apply IH. now inversion Hnd.
  - inversion Hnd as [| ? ? Hnotin _]; subst.
    rewrite List.Forall_forall in *. intros x Hx.
    specialize (Hall x Hx). assert (x <> a) by (intros ->; contradiction). lia.
Qed.

Lemma sortAscending_facts (l : list Z) :
  (forall x, In x (sortAscending l) <-> In x l) /\
  (List.NoDup l -> StronglySorted Z.lt (sortAscending l)).
Proof.
  unfold sortAscending. split; [intros x; apply In_stableSort |].
  intros Hnd. apply StronglySorted_strict.
  - eapply Permutation_NoDup; [| exact Hnd].
    symmetry. apply stableSort_perm.
  - eapply StronglySorted_weaken; [| apply stableSort_sorted].
    + intros a b Hab. now apply Z.leb_le.
    + intros x y. destruct (Z.le_ge_cases x y); [left | right]; now apply Z.leb_le.
    + intros x y z Hxy Hyz. apply Z.leb_le. apply Z.leb_le in Hxy, Hyz. lia.
Qed.

(** X17. In src/elo.js and part_002 the week dropdown offers each week of the
    schedule once, in increasing order, completed or not; [predictWeek]
    prints nothing for an offered week whose games all have a score. *)
Theorem week_options_all_weeks (schedule : list Game) :
  (forall w, In w (weekOptions schedule) <-> exists g, In g schedule /\ week g = w) /\
  StronglySorted Z.lt (weekOptions schedule) /\
  (forall ratings config w,
     (forall g, In g schedule -> week g = w -> isFutureGame g = false) ->
     predictWeek (mkGlobals ratings schedule config) w = []).
Proof.
  unfold weekOptions.
  destruct (sortAscending_facts (distinct (List.map week schedule))) as [Hin Hs].
  split; [| split].
  - intros w. rewrite Hin, In_distinct, in_map_iff.
    split; intros (g & H1 & H2); eauto.
  - apply Hs, NoDup_distinct.
  - intros ratings config w Hdone. apply predictWeek_nil_iff.
    intros g Hg Hfut Hweek. cbn [SCHEDULE] in Hg.
    rewrite (Hdone g Hg Hweek) in Hfut. discriminate.
Qed.

(** X18. In part_000 the week dropdown offers exactly the weeks that have a future
    game, once each and in increasing order: these are the weeks for which
    [predictWeek] prints at least one prediction. *)
Theorem week_options_future_weeks (schedule : list Game) :
  (forall w, In w (futureWeekOptions schedule) <->
     exists g, In g schedule /\ isFutureGame g = true /\ week g = w) /\
  StronglySorted Z.lt (futureWeekOptions schedule) /\
  (forall ratings config w,
     In w (futureWeekOptions schedule) <->
     predictWeek (mkGlobals ratings schedule config) w <> []).
Proof.
  unfold futureWeekOptions.
  destruct (sortAscending_facts (distinct (List.map week (futureGamesOf schedule))))
    as [Hin Hs].
  assert (Hmem : forall w, In w (sortAscending
                     (distinct (List.map week (futureGamesOf schedule)))) <->
            exists g, In g schedule /\ isFutureGame g = true /\ week g = w).
  { intros w. rewrite Hin, In_distinct, in_map_iff. split.
    - intros (g & Hweek & Hg). apply In_futureGamesOf in Hg as [? ?]. eauto.
    - intros (g & Hg & Hfut & Hweek). exists g. split; [assumption |].
      now apply In_futureGamesOf. }
  split; [exact Hmem |]. split; [apply Hs, NoDup_distinct |].
  intros ratings config w. split.
  - intros Hw Hnil. apply Hmem in Hw as (g & Hg & Hfut & Hweek).
    apply (proj1 (predictWeek_nil_iff _ _) Hnil g); assumption.
  - intros Hne.
    destruct (in_dec Z.eq_dec w
                (sortAscending (distinct (List.map week (futureGamesOf schedule)))))
      as [Hyes | Hno]; [exact Hyes |].
    exfalso. apply Hne. apply predictWeek_nil_iff.
    intros g Hg Hfut Hweek. apply Hno. apply Hmem. eauto.
Qed.

(** ** Reading score cells *)

Example toNum_examples :
  toNum "24" = Some (IZR 24) /\
  toNum " 7 (OT)" = Some (IZR 7) /\
  toNum "24-10" = None /\
  toNum "1.2.3" = None /\
  toNum "-" = None /\
  toNum "TBD" = Some 0.
Proof. repeat split. Qed.

Abbreviation charsOf := list_ascii_of_string.

Lemma cleaned_nil (v : string) :
  (forall c, In c (charsOf v) -> keptChar c = false) -> cleaned v = EmptyString.
Proof.
  induction v as [| a v IH]; intros Hall; simpl; [reflexivity |].
  rewrite (Hall a) by (simpl; now left). apply IH.
  intros c Hc. apply Hall. simpl. now right.
Qed.

Lemma allDigits_In (s : string) (c : ascii) :
  allDigits s = true -> In c (charsOf s) -> isDigit c = true.
Proof.
  induction s as [| a s IH]; simpl; [intros _ [] |].
  intros Hall [<- | Hc]; apply andb_true_iff in Hall as [Ha Hs]; auto.
Qed.

Lemma splitDot_chars (s : string) (c : ascii) :
  In c (charsOf s) ->
  c = "."%char \/ In c (charsOf (fst (splitDot s))) \/
  exists frac, snd (splitDot s) = Some frac /\ In c (charsOf frac).
Proof.
  induction s as [| a s IH]; simpl; [intros [] |].
  intros Hc. destruct (bool_decide (a = "."%char)) eqn:Ha.
  - apply bool_decide_eq_true_1 in Ha. subst a. simpl.
    destruct Hc as [<- | Hc]; [now left | right; right; eauto].
  - destruct (splitDot s) as [int frac] eqn:Hsplit. simpl in *.
    destruct Hc as [<- | Hc]; [right; left; now left |].
    destruct (IH Hc) as [Hdot | [Hint | Hfrac]]; auto.
Qed.

Lemma splitDot_after_dot (s1 t : string) :
  exists int frac,
    splitDot (s1 +:+ String "."%char t) = (int, Some frac) /\
    forall c, In c (charsOf t) -> In c (charsOf frac).
Proof.
  induction s1 as [| a s1 IH]; simpl.
  - exists EmptyString, t. split; [reflexivity | auto].
  - destruct (bool_decide (a = "."%char)).
    + exists EmptyString, (s1 +:+ String "."%char t). split; [reflexivity |].
      intros c Hc. clear IH. induction s1 as [| b s1 IHs]; simpl; auto.
    + destruct IH as (int & frac & -> & Hin). eauto.
Qed.

Lemma unsignedLiteral_nondigit (s : string) (c : ascii) :
  In c (charsOf s) -> isDigit c = false -> c <> "."%char ->
  unsignedLiteral s = None.
Proof.
  intros Hc Hnd Hdot. unfold unsignedLiteral.
  destruct (splitDot_chars s c Hc) as [? | [Hint | (frac & Hf & Hfrac)]];
    [contradiction | |];
    destruct (splitDot s) as [int f]; simpl in *.
  - assert (Hall : allDigits int = false).
    { destruct (allDigits int) eqn:Hall; [| reflexivity].
      rewrite (allDigits_In int c Hall Hint) in Hnd. discriminate. }
    destruct f; now rewrite Hall.
  - subst f.
    assert (Hall : allDigits frac = false).
    { destruct (allDigits frac) eqn:Hall; [| reflexivity].
      rewrite (allDigits_In frac c Hall Hfrac) in Hnd. discriminate. }
    rewrite Hall, andb_false_r. reflexivity.
Qed.

Lemma unsignedLiteral_two_dots (s1 t : string) :
  In "."%char (charsOf t) -> unsignedLiteral (s1 +:+ String "."%char t) = None.
Proof.
  intros Hdot. unfold unsignedLiteral.
  destruct (splitDot_after_dot s1 t) as (int & frac & -> & Hin).
  assert (Hall : allDigits frac = false).
  { destruct (allDigits frac) eqn:Hall; [| reflexivity].
    pose proof (allDigits_In frac _ Hall (Hin _ Hdot)) as Hd. discriminate. }
  rewrite Hall, andb_false_r. reflexivity.
Qed.

(** X19. An empty cell reads as [null], but a cell with some text and no digit,
    dot or minus sign in it reads as the number 0.  A row whose two score
    cells hold such text is therefore a completed game, not a future one,
    and the rating loop processes it with a margin of 1 for the listed
    winner. *)
Theorem text_score_reads_as_zero :
  toNum EmptyString = None /\
  (forall v, falsy v = false ->
     (forall c, In c (charsOf v) -> keptChar c = false) ->
     toNum v = Some 0) /\
  (forall v1 v2 g K HFA lambda wc wp lp,
     falsy v1 = false -> falsy v2 = false ->
     (forall c, In c (charsOf v1) -> keptChar c = false) ->
     (forall c, In c (charsOf v2) -> keptChar c = false) ->
     winnerScore g = toNum v1 -> loserScore g = toNum v2 ->
     isCompletedGame g = true /\ isFutureGame g = false /\
     mov (traceRow K HFA lambda wc wp lp g) = 1).
Proof.
  assert (Hzero : forall v, falsy v = false ->
            (forall c, In c (charsOf v) -> keptChar c = false) -> toNum v = Some 0).
  { intros v Hv Hall. unfold toNum. rewrite Hv, (cleaned_nil v Hall). reflexivity. }
  split; [reflexivity |]. split; [exact Hzero |].
  intros v1 v2 g K HFA lambda wc wp lp H1 H2 Hall1 Hall2 Hw Hl.
  rewrite (Hzero v1 H1 Hall1) in Hw. rewrite (Hzero v2 H2 Hall2) in Hl.
  unfold isCompletedGame, isFutureGame, traceRow. cbn [mov].
  rewrite Hw, Hl. simpl. repeat split.
  replace (0 - 0) with 0 by lra. apply Rmax_left. lra.
Qed.

(** X20. The cell is read through its digits, dots and minus signs alone: two
    non-empty cells that keep the same characters read the same.  A minus
    sign after the first kept character, or a second dot, makes the cell
    [null]: a cell such as "24-10" or "1.2.3" leaves the game without that
    score. *)
Theorem malformed_score_is_null :
  (forall v1 v2, falsy v1 = false -> falsy v2 = false ->
     cleaned v1 = cleaned v2 -> toNum v1 = toNum v2) /\
  (forall v c rest, falsy v = false -> cleaned v = String c rest ->
     In "-"%char (charsOf rest) -> toNum v = None) /\
  (forall v s1 t, falsy v = false -> cleaned v = (s1 +:+ String "."%char t) ->
     In "."%char (charsOf t) -> toNum v = None).
Proof.
  split; [| split].
  - intros v1 v2 H1 H2 Heq. unfold toNum. now rewrite H1, H2, Heq.
  - intros v c rest Hv Hclean Hminus. unfold toNum. rewrite Hv, Hclean.
    unfold stringToNumber. destruct (bool_decide (c = "-"%char)).
    + rewrite (unsignedLiteral_nondigit rest "-"%char Hminus); [reflexivity .. |].
      discriminate.
    + apply (unsignedLiteral_nondigit _ "-"%char);
        [simpl; now right | reflexivity | discriminate].
  - intros v s1 t Hv Hclean Hdot. unfold toNum. rewrite Hv, Hclean.
    pose proof (unsignedLiteral_two_dots s1 t Hdot) as Hnone.
    unfold stringToNumber.
    destruct (s1 +:+ String "."%char t) as [| c rest] eqn:Hs.
    { destruct s1; discriminate. }
    destruct (bool_decide (c = "-"%char)) eqn:Hc; [| exact Hnone].
    apply bool_decide_eq_true_1 in Hc. subst c.
    destruct s1 as [| a s1]; [discriminate |].
    simpl in Hs. injection Hs as -> <-.
    now rewrite (unsignedLiteral_two_dots s1 t Hdot).
Qed.

(** ** The order of the rows in the schedule *)

Section SimilarFacts.
Context {A M : Type} (f : M -> A -> M) (key : A -> Z).

Abbreviation le_key := (fun a b : A => (key a <=? key b)%Z).

Lemma similar_refl (l : list A) : similar f key l l.
Proof. induction l; constructor; assumption. Qed.

Lemma similar_fold (l l' : list A) :
  similar f key l l' -> forall m, fold_left f l m = fold_left f l' m.
Proof.
  induction 1 as [| x l l' _ IH | x y l _ Hc | l1 l2 l3 _ IH1 _ IH2];
    intros m; simpl.
  - reflexivity.
  - apply IH.
  - now rewrite Hc.
  - now rewrite IH1.
Qed.

Lemma similar_insert (x : A) (l l' : list A) :
  similar f key l l' ->
  similar f key (insertSorted le_key x l) (insertSorted le_key x l').
Proof.
  induction 1 as [| h l l' Hs IH | a b l Hk Hc | l1 l2 l3 _ IH1 _ IH2].
  - apply similar_refl.
  - simpl. destruct (key x <=? key h)%Z.
    + now do 2 apply similar_skip.
    + now apply similar_skip.
  - simpl. rewrite <- Hk. destruct (key x <=? key a)%Z.
    + apply similar_skip. now apply similar_swap.
    + now apply similar_swap.
  - eapply similar_trans; eassumption.
Qed.

Lemma commute_sym (x y : A) : commute f x y -> commute f y x.
Proof. intros Hc m. symmetry. apply Hc. Qed.

Lemma similar_insert_insert (x y : A) (l : list A) :
  (key x = key y -> commute f x y) ->
  similar f key (insertSorted le_key y (insertSorted le_key x l))
                (insertSorted le_key x (insertSorted le_key y l)).
Proof.
  intros Hc. induction l as [| h t IH]; simpl.
  - destruct (key y <=? key x)%Z eqn:Hyx, (key x <=? key y)%Z eqn:Hxy;
      try apply similar_refl.
    + apply similar_swap; [| apply commute_sym, Hc];
        apply Z.leb_le in Hyx, Hxy; lia.
    + apply Z.leb_gt in Hyx, Hxy. lia.
  - destruct (key x <=? key h)%Z eqn:Hxh, (key y <=? key h)%Z eqn:Hyh; simpl;
      rewrite ?Hxh, ?Hyh.
    + destruct (key y <=? key x)%Z eqn:Hyx, (key x <=? key y)%Z eqn:Hxy;
        try apply similar_refl.
      * apply similar_swap; [| apply commute_sym, Hc];
          apply Z.leb_le in Hyx, Hxy; lia.
      * apply Z.leb_gt in Hyx, Hxy. lia.
    + assert (Hyx : (key y <=? key x)%Z = false)
        by (apply Z.leb_gt; apply Z.leb_le in Hxh; apply Z.leb_gt in Hyh; lia).
      rewrite Hyx. apply similar_refl.
    + assert (Hxy : (key x <=? key y)%Z = false)
        by (apply Z.leb_gt; apply Z.leb_le in Hyh; apply Z.leb_gt in Hxh; lia).
      rewrite Hxy. apply similar_refl.
    + now apply similar_skip.
Qed.

Lemma similar_sort (l l' : list A) :
  Permutation l l' ->
  (forall x y, In x l -> In y l -> key x = key y -> commute f x y) ->
  similar f key (stableSort le_key l) (stableSort le_key l').
Proof.
  induction 1 as [| x l l' Hp IH | x y l | l1 l2 l3 Hp1 IH1 Hp2 IH2]; intros Hc.
  - apply similar_refl.
  - simpl. apply similar_insert. apply IH.
    intros a b Ha Hb. apply Hc; now right.
  - simpl. apply similar_insert_insert. apply Hc; [right; now left | now left].
  - eapply similar_trans; [now apply IH1 |].
    apply IH2. intros a b Ha Hb. apply Hc; eapply Permutation_in;
      try eassumption; now symmetry.
Qed.
End SimilarFacts.

Section Commutation.
Variables (K HFA lambda meanElo : R) (wc : Z).

Abbreviation stepc := (processGame K HFA lambda meanElo wc).

Lemma seed_lookup (a u : string) (m : gmap string R) :
  seed meanElo a m !! u
  = if decide (a = u) then Some (default meanElo (m !! u)) else m !! u.
Proof.
  unfold seed. destruct (decide (a = u)) as [-> | Hne].
  - destruct (m !! u) eqn:Hu; [now rewrite Hu | now rewrite lookup_insert_eq].
  - destruct (m !! a); [reflexivity | now rewrite lookup_insert_ne].
Qed.

(** What the step stores for the two sides of a game depends on the map
    only through the entries of these two sides. *)
Lemma processGame_depends_on_sides (m m' : gmap string R) (g : Game) (t : string) :
  t = winner g \/ t = loser g ->
  m !! winner g = m' !! winner g ->
  m !! loser g = m' !! loser g ->
  stepc m g !! t = stepc m' g !! t.
Proof.
  intros Ht Hw Hl. unfold processGame.
  destruct (falsy (winner g) || falsy (loser g));
    [destruct Ht as [-> | ->]; assumption |].
  cbv zeta.
  set (m2 := seed meanElo (loser g) (seed meanElo (winner g) m)).
  set (m2' := seed meanElo (loser g) (seed meanElo (winner g) m')).
  assert (Hw2 : m2 !! winner g = m2' !! winner g)
    by (unfold m2, m2'; rewrite !seed_lookup, ?Hw, ?Hl; reflexivity).
  assert (Hl2 : m2 !! loser g = m2' !! loser g)
    by (unfold m2, m2'; rewrite !seed_lookup, ?Hw, ?Hl; reflexivity).
  rewrite !lookup_total_alt, Hw2, Hl2.
  destruct (decide (t = loser g)) as [-> | Hne].
  - now rewrite !lookup_insert_eq.
  - destruct Ht as [-> | ->]; [| contradiction].
    rewrite !(lookup_insert_ne _ (loser g)) by congruence.
    now rewrite !lookup_insert_eq.
Qed.

(** Two games without a common team can be processed in either order. *)
Lemma disjoint_games_commute (x y : Game) :
  (falsy (winner x) || falsy (loser x) = false ->
   falsy (winner y) || falsy (loser y) = false -> ~ shareTeam x y) ->
  commute stepc x y.
Proof.
  intros Hdis m.
  destruct (falsy (winner x) || falsy (loser x)) eqn:Hx.
  { unfold processGame at 2 3. rewrite Hx. reflexivity. }
  destruct (falsy (winner y) || falsy (loser y)) eqn:Hy.
  { unfold processGame at 1 4. rewrite Hy. reflexivity. }
  specialize (Hdis eq_refl eq_refl). unfold shareTeam in Hdis.
  assert (Hxy : forall t, t = winner x \/ t = loser x ->
            winner y <> t /\ loser y <> t).
  { intros t [-> | ->]; split; intros Heq; apply Hdis; auto. }
  assert (Hyx : forall t, t = winner y \/ t = loser y ->
            winner x <> t /\ loser x <> t).
  { intros t [-> | ->]; split; intros Heq; apply Hdis; auto. }
  apply map_eq. intros t.
  destruct (decide (t = winner x \/ t = loser x)) as [Htx | Hnx].
  - rewrite (processGame_frame _ _ _ _ _ (stepc m x) y t)
      by (intros _; now apply Hxy).
    apply processGame_depends_on_sides; [assumption | |];
      symmetry; apply processGame_frame; intros _; apply Hxy; auto.
  - rewrite (processGame_frame _ _ _ _ _ (stepc m y) x t)
      by (intros _; split; intros Heq; apply Hnx; auto).
    destruct (decide (t = winner y \/ t = loser y)) as [Hty | Hny].
    + symmetry. apply processGame_depends_on_sides; [assumption | |];
        symmetry; apply processGame_frame; intros _; apply Hyx; auto.
    + rewrite (processGame_frame _ _ _ _ _ (stepc m x) y t)
        by (intros _; split; intros Heq; apply Hny; auto).
      rewrite (processGame_frame _ _ _ _ _ m x t)
        by (intros _; split; intros Heq; apply Hnx; auto).
      rewrite (processGame_frame _ _ _ _ _ m y t)
        by (intros _; split; intros Heq; apply Hny; auto).
      reflexivity.
Qed.
End Commutation.

Lemma weeksCompletedOf_bounds (l : list Game) :
  (forall g, In g l -> (week g <= weeksCompletedOf l)%Z) /\
  (l <> [] -> exists g, In g l /\ week g = weeksCompletedOf l).
Proof.
  destruct l as [| h t]; simpl; [split; [intros g [] | congruence] |].
  destruct (fold_max_ge (List.map week t) (week h)) as [Hh Ht].
  split.
  - intros g [<- | Hg]; [exact Hh | apply Ht; now apply in_map].
  - intros _. destruct (fold_max_attained (List.map week t) (week h)) as [Heq | Hin].
    + exists h. split; [now left | now rewrite Heq].
    + apply in_map_iff in Hin as (g & Hweek & Hg). exists g. split; [now right | assumption].
Qed.

Lemma weeksCompletedOf_perm (l l' : list Game) :
  Permutation l l' -> weeksCompletedOf l = weeksCompletedOf l'.
Proof.
  intros Hp.
  destruct (weeksCompletedOf_bounds l) as [Hle Hex].
  destruct (weeksCompletedOf_bounds l') as [Hle' Hex'].
  destruct l as [| h t].
  - apply Permutation_nil in Hp. now subst.
  - assert (Hne' : l' <> [])
      by (intros ->; symmetry in Hp; now apply Permutation_nil in Hp).
    destruct (Hex ltac:(discriminate)) as (g & Hg & Hmax).
    destruct (Hex' Hne') as (g' & Hg' & Hmax').
    pose proof (Hle' g (Permutation_in _ Hp Hg)).
    pose proof (Hle g' (Permutation_in _ (Permutation_sym Hp) Hg')).
    lia.
Qed.

Lemma completedGamesOf_perm (s s' : list Game) :
  Permutation s s' -> Permutation (completedGamesOf s) (completedGamesOf s').
Proof.
  unfold completedGamesOf.
  induction 1 as [| x l l' _ IH | x y l | l1 l2 l3 _ IH1 _ IH2]; simpl.
  - constructor.
  - destruct (isCompletedGame x); [now constructor | assumption].
  - destruct (isCompletedGame x), (isCompletedGame y);
      try reflexivity. apply perm_swap.
  - etransitivity; eassumption.
Qed.

(** X21. When no two different completed rows of the same week share a team, the
    final ratings do not depend on the order of the rows in the schedule:
    every reordering of the schedule gives the same ratings. *)
Theorem row_order_does_not_matter (startingElo : gmap string R) (config : Config)
    (schedule schedule' : list Game) :
  Permutation schedule schedule' ->
  (forall x y, In x schedule -> In y schedule ->
     isCompletedGame x = true -> isCompletedGame y = true ->
     falsy (winner x) || falsy (loser x) = false ->
     falsy (winner y) || falsy (loser y) = false ->
     week x = week y -> x <> y -> ~ shareTeam x y) ->
  finalRatings startingElo config schedule
  = finalRatings startingElo config schedule' /\
  weeksCompleted schedule = weeksCompleted schedule'.
Proof.
  intros Hperm Hweek.
  pose proof (completedGamesOf_perm _ _ Hperm) as Hdone.
  assert (Hwc : weeksCompleted schedule = weeksCompleted schedule')
    by (unfold weeksCompleted; now apply weeksCompletedOf_perm).
  split; [| exact Hwc].
  rewrite !finalRatings_fold, <- Hwc. unfold sortByWeek.
  apply similar_fold with (key := week).
  apply similar_sort; [exact Hdone |].
  intros x y Hx Hy Hsame.
  apply In_completedGamesOf in Hx as [Hx Hcx], Hy as [Hy Hcy].
  destruct (Classical_Prop.classic (x = y)) as [-> | Hne]; [intros m; reflexivity |].
  apply disjoint_games_commute. intros Hsx Hsy. now apply Hweek.
Qed.

Lemma row_order_does_not_matter_witness :
  finalRatings ratingsAB defaultConfig [gameAB; gameCD]
  = finalRatings ratingsAB defaultConfig [gameCD; gameAB].
Proof.
  refine (proj1 (row_order_does_not_matter ratingsAB defaultConfig
                   [gameAB; gameCD] [gameCD; gameAB] _ _)).
  - apply perm_swap.
  - intros x y [<- | [<- | []]] [<- | [<- | []]] _ _ _ _ _ Hne;
      try (now contradiction Hne);
      intros [H | [H | [H | H]]]; discriminate.
Defined.

(** ** The clamp of part_001 *)

(** X22. Between ordered bounds [clamp] returns a value within the bounds, leaves
    a value that is within them unchanged, and agrees with the
    [Math.min(hi, Math.max(lo, v))] of the forecasts; with the bounds out of
    order it returns the lower one, where the forecasts' form returns the
    upper one. *)
Theorem clamp_within_bounds (v lo hi : R) :
  (lo <= hi ->
     lo <= clamp v lo hi <= hi /\
     (lo <= v <= hi -> clamp v lo hi = v) /\
     clamp v lo hi = Rmin hi (Rmax lo v) /\
     clamp (clamp v lo hi) lo hi = clamp v lo hi) /\
  (hi < lo -> clamp v lo hi = lo /\ Rmin hi (Rmax lo v) = hi).
Proof.
  unfold clamp. split.
  - intros Hle.
    assert (Hcases : Rmax lo (Rmin hi v) = Rmin hi (Rmax lo v)).
    { unfold Rmax, Rmin.
      repeat (destruct (Rle_dec _ _)); lra. }
    assert (Hin : lo <= Rmax lo (Rmin hi v) <= hi).
    { split; [apply Rmax_l |]. apply Rmax_lub; [assumption | apply Rmin_l]. }
    split; [exact Hin |]. split; [| split; [exact Hcases |]].
    + intros [Hlo Hhi]. rewrite Rmin_right by assumption. now apply Rmax_right.
    + destruct Hin as [Hlo Hhi].
      rewrite (Rmin_right hi) by assumption. now apply Rmax_right.
  - intros Hlt. split.
    + apply Rmax_left. apply Rle_trans with hi; [apply Rmin_l | lra].
    + apply Rmin_left. apply Rle_trans with lo; [lra | apply Rmax_l].
Qed.

(** ** How the rating change responds to the game *)

Lemma expectedProb_increasing (w l adj w' l' adj' : R) :
  w + adj - l < w' + adj' - l' -> expectedProb w l adj < expectedProb w' l' adj'.
Proof.
  intros Hlt. unfold expectedProb. cbv zeta.
  apply logistic_anti; [apply pow10_pos | apply pow10_lt; lra].
Qed.

(** X23. Over the real numbers, with a base K that is not negative and a
    half-life that is not 0, the less expected the win, the larger the
    rating change: for the same score and week, a win on the road moves
    the ratings more than the same win at home when the home-field advantage
    is positive, and a win of the lower-rated team moves them more than the
    same win of the higher-rated team would.  A wider score never moves them
    less. *)
Theorem less_expected_win_moves_more (K HFA halfLife : R) (wc wk : Z)
    (w l : string) (ws ls : option R) (away : bool) (a b : R) :
  0 <= K -> halfLife <> 0 ->
  let lambda := ln 2 / halfLife in
  let atHome := mkGame wk w ws false l ls in
  let onRoad := mkGame wk w ws true l ls in
  let g := mkGame wk w ws away l ls in
  (0 < HFA ->
     delta (traceRow K HFA lambda wc a b atHome)
     < delta (traceRow K HFA lambda wc a b onRoad)) /\
  (a < b ->
     delta (traceRow K HFA lambda wc b a g)
     < delta (traceRow K HFA lambda wc a b g)) /\
  (forall ws', ToNumber ws <= ToNumber ws' ->
     delta (traceRow K HFA lambda wc a b g)
     <= delta (traceRow K HFA lambda wc a b (mkGame wk w ws' away l ls))).
Proof.
  intros HK _. cbv zeta. set (lambda := ln 2 / halfLife). split; [| split].
  - intros Hhfa.
    pose proof (kPrime_positive K HFA lambda wc a b (mkGame wk w ws false l ls) HK) as Hk.
    pose proof (expectedProb_increasing a b (- HFA) a b HFA ltac:(lra)) as HE.
    unfold traceRow in *. cbn [delta kPrime winnerIsAway winnerScore loserScore week] in *.
    nra.
  - intros Hab.
    pose proof (kPrime_positive K HFA lambda wc a b (mkGame wk w ws away l ls) HK) as Hk.
    pose proof (expectedProb_increasing a b (if away then - HFA else HFA)
                  b a (if away then - HFA else HFA) ltac:(lra)) as HE.
    unfold traceRow in *. cbn [delta kPrime winnerIsAway winnerScore loserScore week] in *.
    replace (Rabs (b - a)) with (Rabs (a - b)) by apply Rabs_minus_sym.
    nra.
  - intros ws' Hws.
    pose proof (wkWeight_range K HFA lambda wc a b (mkGame wk w ws away l ls)) as Hw.
    pose proof (closeness_factor_range (a - b)) as Hf.
    pose proof (expectedProb_range a b (if away then - HFA else HFA)) as HE.
    unfold traceRow in *.
    cbn [delta kPrime wkWeight winnerIsAway winnerScore loserScore week] in *.
    assert (Hm : Rmax 1 (ToNumber ws - ToNumber ls)
                 <= Rmax 1 (ToNumber ws' - ToNumber ls)).
    { apply Rmax_lub; [apply Rmax_l |].
      apply Rle_trans with (ToNumber ws' - ToNumber ls); [lra | apply Rmax_r]. }
    unfold computeKprime. cbv zeta.
    set (f := 2.2 / (Rabs (a - b) * 0.001 + 2.2)) in *.
    set (wt := Rmin 1 (exp (- lambda * IZR (wc - wk)))) in *.
    set (e := expectedProb a b (if away then - HFA else HFA)) in *.
    assert (Hfw : 0 < f * wt) by nra.
    assert (Hq : 0 < f * wt * (1 - e)) by nra.
    nra.
Qed.

Lemma less_expected_win_moves_more_witness :
  delta (traceRow 50 25 (ln 2 / 12) 1 1450 1550 (mkGame 1 "A" (Some 24) false "B" (Some 10)))
  < delta (traceRow 50 25 (ln 2 / 12) 1 1450 1550
             (mkGame 1 "A" (Some 24) true "B" (Some 10))).
Proof.
  refine (proj1 (less_expected_win_moves_more 50 25 12 1 1 "A" "B"
                   (Some 24) (Some 10) false 1450 1550 _ _) _); lra.
Defined.
